(** * Scratch: a parametric stroke renderer (src/scratch.ts)

    A shallow embedding of the combinator algebra of [Stroke], of the scalar
    helpers ([lerp], [clamp], [bezier], [slideEllipse]), of the rasterizer
    ([drawPixel], [drawLinePixel], [drawLine], [Context.draw]) and of the
    colour conversion [hsl].

    Numbers.  A JavaScript [number] is idealised as a real number: rounding,
    overflow and the sign of zero are not modelled, and the arguments of the
    program are finite.  Arithmetic on finite numbers yields a non-finite
    value only through a division by zero.  The colour channels computed by
    [drawLinePixel] are quotients by an alpha that can be zero: they are of
    type [jsnum].  Two quotients of the program are modelled as real
    quotients, and the statements that depend on them carry the hypothesis
    that keeps the double-precision computation away from a zero divisor:
    - the ratio of the radii in [ellipse] (the polar form with [ry = 0] and
      the tangent form with [rx = 0] compute with an infinite or [NaN]
      ratio): the statements about these forms assume the divisor is not 0;
    - the projection parameter of [drawLinePixel], a quotient by
      [dx ** 2 + dy ** 2] that is guarded by the test [dx === 0]: in double
      precision the squares of a segment shorter than about 1e-162 underflow
      to 0 although [dx] is not 0, and the quotient is [NaN] or infinite.
      The statements about the pixels [drawLine] writes are about segments
      whose end points coincide or are at least one pixel apart along an
      axis ([separated]).
    Pixel coordinates are integers, as [drawLine] produces them; they are
    unbounded, where the loop counter of the program stops changing at 2^53.

    Exceptions.  The evaluator of a stroke returns an [option]: [None] stands
    for a thrown [TypeError] (reading [_evaluator] of [undefined]).  Functions
    supplied by the caller are total functions.

    Objects.  A [LinePointPartial] is a record of seven optional numbers: a
    property is either absent or holds a number.  [Object.assign] also copies
    a property that is present with the value [undefined]; the merging
    combinators are modelled a second time on objects that can hold such
    properties ([PointObject], [ObjectStroke]). *)

From Stdlib Require Import Reals Lra Lia ZArith List Bool.
From Equations Require Import Equations.
From stdpp Require Import list.
Import ListNotations.
Open Scope R_scope.

(** ** Numbers *)

(** The value of a JavaScript quotient: finite, or one of the three
    non-finite values a division by zero produces. *)
Inductive jsnum : Type :=
| Fin (v : R)
| NaN
| Infinity
| NegInfinity.

(** [n / d] on finite operands. *)
Definition jsdiv (n d : R) : jsnum :=
  if Req_dec_T d 0 then
    if Req_dec_T n 0 then NaN
    else if Rlt_dec 0 n then Infinity else NegInfinity
  else Fin (n / d).

(** [Math.trunc]: the integer part, rounding toward zero. *)
Definition Ztrunc (v : R) : Z :=
  if Rle_dec 0 v then Zfloor v else Zceil v.

(** [a % n] for finite [a] and non-zero [n]: the remainder has the sign of
    the dividend. *)
Definition js_rem (a n : R) : R := a - n * IZR (Ztrunc (a / n)).

(** [Math.sign]. *)
Definition Math_sign (v : R) : R :=
  if Rlt_dec 0 v then 1 else if Rlt_dec v 0 then -1 else 0.

(** [lerp(t, a, b)]. *)
Definition lerp (t a b : R) : R := (1 - t) * a + t * b.

(** [clamp(t, a, b)]; the one-argument form is [clamp01]. *)
Definition clamp (t a b : R) : R :=
  let '(a, b) := if Rlt_dec b a then (b, a) else (a, b) in
  Rmax (Rmin t b) a.

Definition clamp01 (t : R) : R := clamp t 0 1.

(** [clamp(t)] on a quotient: [Math.min] and [Math.max] propagate [NaN] and
    order the infinities. *)
Definition clamp01N (t : jsnum) : jsnum :=
  match t with
  | Fin v => Fin (clamp01 v)
  | NaN => NaN
  | Infinity => Fin 1
  | NegInfinity => Fin 0
  end.

(** [bezier(t, values)].  On the empty array the source recurses without end
    (a [RangeError]): [None]. *)
Equations? bezier (t : R) (values : list R) : option R
  by wf (length values) lt :=
  bezier t [] := None;
  bezier t [v] := Some v;
  bezier t (v :: w :: vs) :=
    match bezier t (removelast (v :: w :: vs)), bezier t (w :: vs) with
    | Some p, Some q => Some (lerp t p q)
    | _, _ => None
    end.
Proof.
  - change (length (v :: removelast (w :: vs)) < length (v :: w :: vs))%nat.
    cbn [length]. apply -> Nat.succ_lt_mono.
    clear. revert w. induction vs as [|u vs IH]; intros w; cbn; [lia|].
    specialize (IH u). cbn in IH. lia.
  - cbn. lia.
Qed.

(** The first statement of the closure returned by [slideEllipse]:
    [(t % 1 + 1.5) % 1 - 0.5]. *)
Definition wrapTurn (t : R) : R := js_rem (js_rem t 1 + 15 / 10) 1 - 5 / 10.

(** [slideEllipse(ratio)].  [tan] is the real tangent: at the poles of the
    tangent ([t] a quarter turn from the axis) the real and the computed
    function differ. *)
Definition slideEllipse (ratio : R) (t : R) : R :=
  let t := wrapTurn t in
  let offset := if Rlt_dec (25 / 100) (Rabs t) then 5 / 10 * Math_sign t else 0 in
  atan (tan (t * 2 * PI) * ratio) / (2 * PI) + offset.

(** ** Points *)

(** The property names of a stroke point. *)
Inductive Key : Set := Kx | Ky | Kr | Kg | Kb | Ka | Kw.

#[global] Instance Key_eq_dec : EqDecision Key.
Proof. solve_decision. Defined.

(** [LinePointPartial]: a stroke point with optional values. *)
Record LinePointPartial : Type := mkPartial {
  px : option R; py : option R;
  pr : option R; pg : option R; pb : option R; pa : option R;
  pw : option R
}.

(** [LinePoint]: a line endpoint. *)
Record LinePoint : Type := mkPoint {
  lx : R; ly : R;
  lr : R; lg : R; lb : R; la : R;
  lw : R
}.

(** The object literal [{}]. *)
Definition emptyPoint : LinePointPartial :=
  mkPartial None None None None None None None.

(** [p[k]]. *)
Definition get (k : Key) (p : LinePointPartial) : option R :=
  match k with
  | Kx => px p | Ky => py p
  | Kr => pr p | Kg => pg p | Kb => pb p | Ka => pa p
  | Kw => pw p
  end.

(** [p[k] = v]. *)
Definition set (k : Key) (v : option R) (p : LinePointPartial) : LinePointPartial :=
  match k with
  | Kx => mkPartial v (py p) (pr p) (pg p) (pb p) (pa p) (pw p)
  | Ky => mkPartial (px p) v (pr p) (pg p) (pb p) (pa p) (pw p)
  | Kr => mkPartial (px p) (py p) v (pg p) (pb p) (pa p) (pw p)
  | Kg => mkPartial (px p) (py p) (pr p) v (pb p) (pa p) (pw p)
  | Kb => mkPartial (px p) (py p) (pr p) (pg p) v (pa p) (pw p)
  | Ka => mkPartial (px p) (py p) (pr p) (pg p) (pb p) v (pw p)
  | Kw => mkPartial (px p) (py p) (pr p) (pg p) (pb p) (pa p) v
  end.

(** One property of [Object.assign]: the source's value when it has the
    property, the target's otherwise. *)
Definition override (target source : option R) : option R :=
  match source with
  | Some v => Some v
  | None => target
  end.

(** [Object.assign({}, p, q)] and [Object.assign(p, q)] on stroke points none
    of whose properties holds [undefined] (the embedding has no aliasing:
    every point is a value).  [Object_assign] below is the general case. *)
Definition assign (p q : LinePointPartial) : LinePointPartial :=
  mkPartial (override (px p) (px q)) (override (py p) (py q))
            (override (pr p) (pr q)) (override (pg p) (pg q))
            (override (pb p) (pb q)) (override (pa p) (pa q))
            (override (pw p) (pw q)).

(** [Object.assign({}, d, p)] for a full point [d]: every property is
    defined in the result. *)
Definition resolve (d : LinePoint) (p : LinePointPartial) : LinePoint :=
  mkPoint (default (lx d) (px p)) (default (ly d) (py p))
          (default (lr d) (pr p)) (default (lg d) (pg p))
          (default (lb d) (pb p)) (default (la d) (pa p))
          (default (lw d) (pw p)).

(** [Object.keys(p)]. *)
Definition keys (p : LinePointPartial) : list Key :=
  filter (fun k => is_Some (get k p)) [Kx; Ky; Kr; Kg; Kb; Ka; Kw].

(** ** Strokes *)

(** The angle conventions of [ellipse]. *)
Inductive Form : Set := parametric_form | polar_form | tangent_form.

Module Stroke.

(** A stroke wraps its parametric function; [None] is a thrown exception. *)
Record t : Type := _create { _evaluator : R -> option LinePointPartial }.

(** [new Stroke()]. *)
Definition new : t := _create (fun _ => Some emptyPoint).

(** [strokes[index]] for a number [index]: an element when [index] is an
    integer within the array, [undefined] otherwise. *)
Definition at_index (strokes : list t) (index : R) : option t :=
  if Req_dec_T (IZR (Zfloor index)) index then
    if Rle_dec 0 index then strokes !! Z.to_nat (Zfloor index) else None
  else None.

Definition sequence (strokes : list t) : t :=
  _create (fun t =>
    let t := t * INR (length strokes) in
    let index := clamp (IZR (Zfloor t)) 0 (INR (length strokes) - 1) in
    match at_index strokes index with
    | Some s => _evaluator s (t - index)
    | None => None
    end).

Definition evaluate (this : t) (t : R) : option LinePointPartial :=
  _evaluator this t.

Definition parametric (this : t) (f : R -> LinePointPartial) : t :=
  _create (fun t =>
    match _evaluator this t with
    | Some p => Some (assign p (f t))
    | None => None
    end).

Definition transform (this : t) (f : LinePointPartial -> LinePointPartial) : t :=
  _create (fun t =>
    match _evaluator this t with
    | Some point => Some (assign point (f point))
    | None => None
    end).

Definition slide (this : t) (f : R -> R) : t :=
  _create (fun t => _evaluator this (f t)).

Definition cut (this : t) (t0 t1 : R) : t :=
  slide this (fun t => t * (t1 - t0) + t0).

Definition fix_ (this : t) (point : LinePointPartial) : t :=
  _create (fun t =>
    match _evaluator this t with
    | Some p => Some (assign p point)
    | None => None
    end).

(** [points.map(p => p[prop])], for a [prop] every point has. *)
Definition values_of (prop : Key) (points : list LinePointPartial) : option (list R) :=
  mapM (get prop) points.

(** [bezier(start, ...points)]: the declared signature has at least one
    point. *)
Definition bezier (this : t) (start : LinePointPartial)
    (points : list LinePointPartial) : t :=
  let points := start :: points in
  let propsList := map keys points in
  let props :=
    filter (fun p => forallb (fun s => bool_decide (p ∈ s)) propsList = true)
           (keys start) in
  _create (fun t =>
    let result :=
      foldl (fun result prop =>
               set prop (values_of prop points ≫= bezier t) result)
            emptyPoint props in
    match _evaluator this t with
    | Some p => Some (assign p result)
    | None => None
    end).

Definition line (this : t) (start end_ : LinePointPartial) : t :=
  bezier this start [end_].

(** [ellipse(x, y, rx, ry, start, ccw, form)].  The ratio of the radii is
    the real quotient: it is the computed one when the divisor is not 0. *)
Definition ellipse (this : t) (x y rx ry start : R) (ccw : bool) (form : Form) : t :=
  let result :=
    parametric this (fun t =>
      mkPartial
        (Some (x + rx * cos ((if ccw then - t else t) * 2 * PI)))
        (Some (y + ry * sin ((if ccw then - t else t) * 2 * PI)))
        None None None None None) in
  let result :=
    match form with
    | parametric_form => result
    | polar_form => slide result (slideEllipse (rx / ry))
    | tangent_form => slide result (slideEllipse (ry / rx))
    end in
  slide result (fun t => t + start / (2 * PI)).

Definition circle (this : t) (x y r start : R) (ccw : bool) : t :=
  ellipse this x y r r start ccw parametric_form.

Definition matrix (this : t) (a b c d e f : R) : t :=
  _create (fun t =>
    match _evaluator this t with
    | None => None
    | Some point =>
        match px point, py point with
        | Some x, Some y =>
            Some (assign point
                    (mkPartial (Some (a * x + c * y + e))
                               (Some (b * x + d * y + f))
                               None None None None None))
        | _, _ => Some point
        end
    end).

Definition translate (this : t) (x y : R) : t :=
  matrix this 1 0 0 1 x y.

(** [scale(sx, sy, x, y)]; the two-argument form has [x = y = 0]. *)
Definition scale (this : t) (sx sy x y : R) : t :=
  matrix this sx 0 0 sy (x - sx * x) (y - sy * y).

(** [rotate(angle, x, y)]; the one-argument form has [x = y = 0]. *)
Definition rotate (this : t) (angle x y : R) : t :=
  matrix this (cos angle) (sin angle) (- sin angle) (cos angle)
    (- cos angle * x + sin angle * y + x)
    (- sin angle * x + - cos angle * y + y).

End Stroke.

(** ** Objects whose properties can hold [undefined] *)

(** A property of an object: absent ([None]), present with the value
    [undefined] ([Some None]), or present with a number. *)
Definition property : Type := option (option R).

(** A stroke point as the object it is: each of the seven properties is
    absent, holds [undefined] or holds a number.  A [LinePointPartial] is such
    an object with no property that holds [undefined]. *)
Record PointObject : Type := mkObject {
  o_x : property; o_y : property;
  o_r : property; o_g : property; o_b : property; o_a : property;
  o_w : property
}.

(** The object literal [{}]. *)
Definition emptyObject : PointObject :=
  mkObject None None None None None None None.

(** The own property [k] of [o]. *)
Definition own (k : Key) (o : PointObject) : property :=
  match k with
  | Kx => o_x o | Ky => o_y o
  | Kr => o_r o | Kg => o_g o | Kb => o_b o | Ka => o_a o
  | Kw => o_w o
  end.

(** [o[k]]: reading an absent property gives [undefined]. *)
Definition read (k : Key) (o : PointObject) : option R :=
  match own k o with
  | Some v => v
  | None => None
  end.

(** One property of [Object.assign]: every own property of the source is
    copied, whatever its value; the target keeps the others. *)
Definition copy (target source : property) : property :=
  match source with
  | Some v => Some v
  | None => target
  end.

(** [Object.assign(target, source)]. *)
Definition Object_assign (target source : PointObject) : PointObject :=
  mkObject (copy (o_x target) (o_x source)) (copy (o_y target) (o_y source))
           (copy (o_r target) (o_r source)) (copy (o_g target) (o_g source))
           (copy (o_b target) (o_b source)) (copy (o_a target) (o_a source))
           (copy (o_w target) (o_w source)).

(** The merging combinators of [Stroke] on such objects. *)
Module ObjectStroke.

Record t : Type := _create { _evaluator : R -> option PointObject }.

Definition new : t := _create (fun _ => Some emptyObject).

Definition evaluate (this : t) (t : R) : option PointObject :=
  _evaluator this t.

(** [Object.assign({}, this._evaluator(t), f(t))]. *)
Definition parametric (this : t) (f : R -> PointObject) : t :=
  _create (fun t =>
    match _evaluator this t with
    | Some p => Some (Object_assign (Object_assign emptyObject p) (f t))
    | None => None
    end).

(** [Object.assign(point, f(Object.assign({}, point)))]. *)
Definition transform (this : t) (f : PointObject -> PointObject) : t :=
  _create (fun t =>
    match _evaluator this t with
    | Some point =>
        Some (Object_assign point (f (Object_assign emptyObject point)))
    | None => None
    end).

(** [Object.assign({}, this._evaluator(t), point)]. *)
Definition fix_ (this : t) (point : PointObject) : t :=
  _create (fun t =>
    match _evaluator this t with
    | Some p => Some (Object_assign (Object_assign emptyObject p) point)
    | None => None
    end).

End ObjectStroke.

(** ** The pixel buffer *)

(** [ImageData]: [pixels] is the [Uint8ClampedArray] of RGBA bytes. *)
Record ImageData : Type := mkImage {
  width : Z;
  height : Z;
  pixels : list Z
}.

(** [ctx.createImageData(w, h)]: transparent black. *)
Definition createImageData (w h : Z) : ImageData :=
  mkImage w h (replicate (Z.to_nat (4 * w * h)) 0%Z).

(** The conversion applied by a store into a [Uint8ClampedArray]: [NaN] is 0,
    the value is clamped to [0, 255] and rounded to the nearest integer, a
    tie going to the even one. *)
Definition ToUint8Clamp (v : jsnum) : Z :=
  match v with
  | NaN => 0
  | Infinity => 255
  | NegInfinity => 0
  | Fin v =>
      if Rle_dec v 0 then 0
      else if Rle_dec 255 v then 255
      else
        let f := Zfloor v in
        if Rlt_dec (IZR f + 5 / 10) v then f + 1
        else if Rlt_dec v (IZR f + 5 / 10) then f
        else if Z.even f then f else f + 1
  end%Z.

(** [data[i]]: [undefined] outside the array. *)
Definition load (data : list Z) (i : Z) : option Z :=
  if (0 <=? i)%Z then data !! Z.to_nat i else None.

(** [data[i] = v]: a store outside the array is ignored. *)
Definition store (data : list Z) (i : Z) (v : jsnum) : list Z :=
  if (0 <=? i)%Z then <[Z.to_nat i := ToUint8Clamp v]> data else data.

(** [Math.floor(clamp(c) * 255)]: [None] is [NaN]. *)
Definition channelByte (c : jsnum) : option Z :=
  match clamp01N c with
  | Fin v => Some (Zfloor (v * 255))
  | _ => None
  end.

(** A number that is an integer or [NaN]. *)
Definition ofByte (c : option Z) : jsnum :=
  match c with
  | Some z => Fin (IZR z)
  | None => NaN
  end.

(** [lerp(blend, old, c * a) / a], where [old] is a byte read from the array
    and [c] an integer or [NaN]. *)
Definition blendChannel (blend : R) (old c : option Z) (a : R) : jsnum :=
  match old, c with
  | Some o, Some cv => jsdiv (lerp blend (IZR o) (IZR cv * a)) a
  | _, _ => NaN
  end.

Definition drawPixel (data : ImageData) (x y : Z) (r g b : jsnum) (a blend : R)
    : ImageData :=
  if ((x <? 0) || (x >=? width data) || (y <? 0) || (y >=? height data))%Z
  then data
  else
    let r := channelByte r in
    let g := channelByte g in
    let b := channelByte b in
    let a := clamp01 a in
    let i := ((y * width data + x) * 4)%Z in
    match load (pixels data) (i + 3) with
    | None => data
    | Some old =>
        let oldA := IZR old / 255 in
        if Rle_dec oldA blend then
          let a := IZR (Zfloor (a * blend * 255)) in
          let d := store (pixels data) (i + 0) (ofByte r) in
          let d := store d (i + 1) (ofByte g) in
          let d := store d (i + 2) (ofByte b) in
          let d := store d (i + 3) (Fin a) in
          mkImage (width data) (height data) d
        else if Req_dec_T oldA 1 then
          let a := lerp blend oldA a in
          let d := pixels data in
          let d := store d (i + 0) (blendChannel blend (load d (i + 0)) r a) in
          let d := store d (i + 1) (blendChannel blend (load d (i + 1)) g a) in
          let d := store d (i + 2) (blendChannel blend (load d (i + 2)) b a) in
          let a := IZR (Zfloor (a * 255)) in
          let d := store d (i + 3) (Fin a) in
          mkImage (width data) (height data) d
        else data
    end.

(** ** The rasterizer *)

(** The projection parameter of [drawLinePixel]: the closest point of the
    line to the pixel, overridden to 0 when [dx] is 0.  The quotient is the
    real one: it is the computed one when the computed divisor is not 0, that
    is, away from the segments so short that their squared length underflows. *)
Definition projection (x y : Z) (start end_ : LinePoint) : R :=
  let dx := lx end_ - lx start in
  let dy := ly end_ - ly start in
  let dxPx := IZR x - lx start in
  let dyPx := IZR y - ly start in
  let t := (dx * dxPx + dy * dyPx) / (dx ^ 2 + dy ^ 2) in
  if Req_dec_T dx 0 then 0 else t.

(** The strength of the pixel for the clamped parameter [t]. *)
Definition coverage (x y : Z) (start end_ : LinePoint) (t : R) : R :=
  let tx := lerp t (lx start) (lx end_) in
  let ty := lerp t (ly start) (ly end_) in
  let tw := Rmax (lerp t (lw start) (lw end_)) 0 in
  let d := sqrt ((IZR x - tx) ^ 2 + (IZR y - ty) ^ 2) in
  clamp01 ((Rmax tw 1 * (5 / 10) + 5 / 10 - d) * Rmin tw 1).

(** [drawLinePixel]: the image after the call and the returned boolean. *)
Definition drawLinePixel (data : ImageData) (x y : Z) (start end_ : LinePoint)
    (steep reverse : bool) : ImageData * bool :=
  let t := projection x y start end_ in
  let isStartCap := if Rlt_dec t 0 then true else false in
  let t := clamp01 t in
  let ta := lerp t (la start) (la end_) in
  let tr := jsdiv (lerp t (lr start * la start) (lr end_ * la end_)) ta in
  let tg := jsdiv (lerp t (lg start * la start) (lg end_ * la end_)) ta in
  let tb := jsdiv (lerp t (lb start * la start) (lb end_ * la end_)) ta in
  let blend := coverage x y start end_ t in
  if Req_dec_T blend 0 then (data, false)
  else if isStartCap then (data, true)
  else
    let x := if reverse then (- x)%Z else x in
    let '(x, y) := if steep then (y, x) else (x, y) in
    (drawPixel data x y tr tg tb ta blend, true).

(** The result of a computation that loops and may throw: a value, a thrown
    exception, or a loop that the given fuel did not see end. *)
Inductive outcome (A : Type) : Type :=
| Done (a : A)
| Throw
| OutOfFuel.
Arguments Done {A} a.
Arguments Throw {A}.
Arguments OutOfFuel {A}.

#[global] Instance outcome_ret : MRet outcome := fun _ a => Done a.
#[global] Instance outcome_bind : MBind outcome := fun _ _ k m =>
  match m with
  | Done a => k a
  | Throw => Throw
  | OutOfFuel => OutOfFuel
  end.

(** The two inner loops of [drawLine]: [for (let y = y0; true; y += step)],
    left when [drawLinePixel] returns false.  [step] is 1 going down and -1
    going up. *)
Fixpoint scan (fuel : nat) (step : Z) (data : ImageData) (x y : Z)
    (start end_ : LinePoint) (steep reverse : bool) : outcome ImageData :=
  match fuel with
  | O => OutOfFuel
  | S fuel =>
      let '(data, inside) := drawLinePixel data x y start end_ steep reverse in
      if inside then scan fuel step data x (y + step)%Z start end_ steep reverse
      else Done data
  end.

(** The outer loop of [drawLine], with [n] columns left from [x] on.  The
    abscissa is an unbounded integer. *)
Fixpoint columns (fuel : nat) (n : nat) (data : ImageData) (x : Z) (slope : R)
    (start end_ : LinePoint) (steep reverse : bool) : outcome ImageData :=
  match n with
  | O => Done data
  | S n =>
      let lineY :=
        clamp (ly start + slope * (IZR x - lx start)) (ly start) (ly end_) in
      data ← scan fuel 1 data x (Zceil lineY) start end_ steep reverse;
      data ← scan fuel (-1) data x (Zfloor lineY) start end_ steep reverse;
      columns fuel n data (x + 1)%Z slope start end_ steep reverse
  end.

Definition swapXY (p : LinePoint) : LinePoint :=
  mkPoint (ly p) (lx p) (lr p) (lg p) (lb p) (la p) (lw p).

Definition negateX (p : LinePoint) : LinePoint :=
  mkPoint (- lx p) (ly p) (lr p) (lg p) (lb p) (la p) (lw p).

(** The end points of [drawLine] after the swap of the axes and the
    inversion of the X axis, with the two flags. *)
Definition normalize (start end_ : LinePoint) : LinePoint * LinePoint * bool * bool :=
  let steep :=
    if Rlt_dec (Rabs (lx start - lx end_)) (Rabs (ly start - ly end_))
    then true else false in
  let start := if steep then swapXY start else start in
  let end_ := if steep then swapXY end_ else end_ in
  let reverse := if Rlt_dec (lx end_) (lx start) then true else false in
  let start := if reverse then negateX start else start in
  let end_ := if reverse then negateX end_ else end_ in
  (start, end_, steep, reverse).

Definition drawLine (fuel : nat) (data : ImageData) (start end_ : LinePoint)
    : outcome ImageData :=
  let '(start, end_, steep, reverse) := normalize start end_ in
  let slope :=
    if Req_dec_T (lx end_) (lx start) then 0
    else (ly end_ - ly start) / (lx end_ - lx start) in
  let minX := Zfloor (lx start - lw start * (5 / 10)) in
  let maxX := Zfloor (lx end_ + lw end_ * (5 / 10)) in
  columns fuel (Z.to_nat (maxX - minX + 1)) data minX slope
          start end_ steep reverse.

(** ** The drawing context *)

Module Context.

(** The segmentation count is an integer. *)
Record t : Type := mk {
  _strokes : list Stroke.t;
  segmentation : Z;
  default : LinePoint
}.

(** [new Context()]. *)
Definition new : t := mk [] 256 (mkPoint 0 0 0 0 0 1 1).

Definition add (this : t) (strokes : list Stroke.t) : t :=
  mk (_strokes this ++ strokes) (segmentation this) (default this).

Definition clear (this : t) : t :=
  mk [] (segmentation this) (default this).

(** [stroke.evaluate(t)] merged onto the default point. *)
Definition sample (this : t) (stroke : Stroke.t) (t : R) : outcome LinePoint :=
  match Stroke.evaluate stroke t with
  | Some p => Done (resolve (default this) p)
  | None => Throw
  end.

(** The loop [for (let t = k; t <= this.segmentation; t++)], with [n]
    segments left. *)
Fixpoint segments (fuel : nat) (this : t) (stroke : Stroke.t) (n : nat) (k : Z)
    (lineStart : LinePoint) (data : ImageData) : outcome ImageData :=
  match n with
  | O => Done data
  | S n =>
      lineEnd ← sample this stroke (IZR k / IZR (segmentation this));
      data ← drawLine fuel data lineStart lineEnd;
      segments fuel this stroke n (k + 1)%Z lineEnd data
  end.

(** The body of the loop over the strokes. *)
Definition drawStroke (fuel : nat) (this : t) (data : ImageData)
    (stroke : Stroke.t) : outcome ImageData :=
  lineStart ← sample this stroke 0;
  data ← drawLine fuel data lineStart lineStart;
  segments fuel this stroke (Z.to_nat (segmentation this)) 1 lineStart data.

Fixpoint drawStrokes (fuel : nat) (this : t) (data : ImageData)
    (strokes : list Stroke.t) : outcome ImageData :=
  match strokes with
  | [] => Done data
  | stroke :: strokes =>
      data ← drawStroke fuel this data stroke;
      drawStrokes fuel this data strokes
  end.

(** [draw(ctx)] up to the image handed to the canvas, for a canvas of [w]
    by [h] pixels. *)
Definition draw (fuel : nat) (this : t) (w h : Z) : outcome ImageData :=
  drawStrokes fuel this (createImageData w h) (_strokes this).

End Context.

(** ** Colours *)

(** [result[k] += white]. *)
Definition addTo (k : Key) (white : R) (result : LinePointPartial)
    : LinePointPartial :=
  set k ((fun v => v + white) <$> get k result) result.

(** [hsl(h, s, l, a)]; [a] is [None] when the argument is left out. *)
Definition hsl (h s l : R) (a : option R) : LinePointPartial :=
  let h' := js_rem h 1 * 6 in
  let s := clamp01 s in
  let l := clamp01 l in
  let c := (1 - Rabs (2 * l - 1)) * s in
  let result := mkPartial None None (Some 0) (Some 0) (Some 0) None None in
  let result :=
    match a with
    | Some v => set Ka (Some v) result
    | None => result
    end in
  let result :=
    if Rlt_dec h' 1 then
      set Kg (Some (c * h')) (set Kr (Some c) result)
    else if Rlt_dec h' 2 then
      set Kg (Some c) (set Kr (Some (c * (2 - h'))) result)
    else if Rlt_dec h' 3 then
      set Kb (Some (c * (h' - 2))) (set Kg (Some c) result)
    else if Rlt_dec h' 4 then
      set Kb (Some c) (set Kg (Some (c * (4 - h'))) result)
    else if Rlt_dec h' 5 then
      set Kb (Some c) (set Kr (Some (c * (h' - 4))) result)
    else
      set Kb (Some (c * (6 - h'))) (set Kr (Some c) result) in
  let white := l - c * (5 / 10) in
  let result := addTo Kr white result in
  let result := addTo Kg white result in
  let result := addTo Kb white result in
  result.

(** ** The vocabulary of the statements *)

(** The precedence of [Object.assign]: [merged] has, property by property,
    the property of [over] where [over] has it as an own property (whatever
    its value), and the property of [parent] elsewhere. *)
Definition overrides (parent over merged : PointObject) : Prop :=
  forall k : Key,
    own k merged =
    match own k over with
    | Some v => Some v
    | None => own k parent
    end.

(** The precedence by defined values: every property that reads as
    [undefined] in [over] reads in [merged] as it does in [parent]. *)
Definition falls_through (parent over merged : PointObject) : Prop :=
  forall k : Key, read k over = None -> read k merged = read k parent.

(** The object of a [LinePointPartial]: its defined properties, each holding
    its number. *)
Definition ofPartial (p : LinePointPartial) : PointObject :=
  mkObject (Some <$> px p) (Some <$> py p)
           (Some <$> pr p) (Some <$> pg p) (Some <$> pb p) (Some <$> pa p)
           (Some <$> pw p).

(** The curve of objects of a curve of [LinePointPartial]s. *)
Definition ofStroke (c : Stroke.t) : ObjectStroke.t :=
  ObjectStroke._create (fun t => ofPartial <$> Stroke._evaluator c t).

(** An object with no property that holds [undefined]. *)
Definition all_numbers (o : PointObject) : Prop :=
  forall k : Key, own k o <> Some None.

(** [p] with its position replaced and every other property kept. *)
Definition moved (p : LinePointPartial) (x y : R) : LinePointPartial :=
  mkPartial (Some x) (Some y) (pr p) (pg p) (pb p) (pa p) (pw p).

(** The index [sequence] dispatches to: [floor (N * t)] clamped to
    [0, N - 1]. *)
Definition interval (N : nat) (t : R) : Z :=
  Z.max 0 (Z.min (Zfloor (INR N * t)) (Z.of_nat N - 1)).

(** An image whose array has four bytes for each pixel. *)
Definition well_formed (data : ImageData) : Prop :=
  (0 <= width data)%Z /\ (0 <= height data)%Z /\
  Z.of_nat (length (pixels data)) = (4 * width data * height data)%Z /\
  Forall (fun v => 0 <= v <= 255)%Z (pixels data).

(** The index of the first byte of pixel [(x, y)]. *)
Definition offset (data : ImageData) (x y : Z) : Z :=
  ((y * width data + x) * 4)%Z.

Definition in_bounds (data : ImageData) (x y : Z) : Prop :=
  (0 <= x < width data)%Z /\ (0 <= y < height data)%Z.

(** Source-over of a colour [c] of alpha [a], weighted by [blend], over an
    opaque colour [old], as the specification words it: the two colours are
    interpolated premultiplied by their own alpha, and the result is divided
    by the interpolated alpha. *)
Definition sourceOver (blend old c a : R) : R :=
  lerp blend (old * 1) (c * a) / lerp blend 1 a.

(** The interpolation as the specification words it: one value is returned;
    otherwise the interpolation of all values but the last and that of all
    values but the first are combined as [(1 - t) * p + t * q]. *)
Inductive DeCasteljau (t : R) : list R -> R -> Prop :=
| dc_one (v : R) : DeCasteljau t [v] v
| dc_step (values : list R) (p q : R) :
    (2 <= length values)%nat ->
    DeCasteljau t (removelast values) p ->
    DeCasteljau t (tail values) q ->
    DeCasteljau t values ((1 - t) * p + t * q).

(** The offset added by [slideEllipse] for the normalized parameter [n]. *)
Definition quadrantOffset (n : R) : R :=
  if Rlt_dec (25 / 100) (Rabs n) then 5 / 10 * Math_sign n else 0.



(** The chroma [hsl] computes from the clamped saturation and lightness. *)
Definition chroma (s l : R) : R :=
  (1 - Rabs (2 * clamp01 l - 1)) * clamp01 s.

(** The largest and the smallest of three channels. *)
Definition max3 (r g b : R) : R := Rmax r (Rmax g b).
Definition min3 (r g b : R) : R := Rmin r (Rmin g b).

(** The parameter at which [ellipse] samples its parametric curve: the phase
    shift by [start], then the correction of the form. *)
Definition ellipseParam (rx ry start : R) (form : Form) (t : R) : R :=
  let t' := t + start / (2 * PI) in
  match form with
  | parametric_form => t'
  | polar_form => slideEllipse (rx / ry) t'
  | tangent_form => slideEllipse (ry / rx) t'
  end.

(** The four bytes of pixel [(x, y)] are the same in the two arrays. *)
Definition same_pixel (data : ImageData) (d d' : list Z) (x y : Z) : Prop :=
  forall m, (0 <= m <= 3)%Z ->
    load d' (offset data x y + m) = load d (offset data x y + m).

(** The distance from the pixel [(X, Y)] to the point of parameter [t] of
    the segment. *)
Definition distance (X Y : Z) (start end_ : LinePoint) (t : R) : R :=
  sqrt ((IZR X - lerp t (lx start) (lx end_)) ^ 2 +
        (IZR Y - lerp t (ly start) (ly end_)) ^ 2).







(** * Properties *)

(** ** Scalar helpers *)

Lemma clamp_ordered (t a b : R) : a <= b -> clamp t a b = Rmax (Rmin t b) a.
Proof.
  intros Hab. unfold clamp. destruct (Rlt_dec b a); [lra | reflexivity].
Qed.

Lemma clamp_swapped (t a b : R) : b < a -> clamp t a b = Rmax (Rmin t a) b.
Proof.
  intros Hab. unfold clamp. destruct (Rlt_dec b a); [reflexivity | lra].
Qed.

Lemma clamp_bounds (t a b : R) : a <= b -> a <= clamp t a b <= b.
Proof.
  intros Hab. rewrite clamp_ordered by assumption.
  unfold Rmax, Rmin. repeat destruct (Rle_dec _ _); lra.
Qed.

Lemma clamp_inside (t a b : R) : a <= t <= b -> clamp t a b = t.
Proof.
  intros [Ha Hb]. rewrite clamp_ordered by lra.
  unfold Rmax, Rmin. repeat destruct (Rle_dec _ _); lra.
Qed.

Lemma clamp_below (t a b : R) : a <= b -> t <= a -> clamp t a b = a.
Proof.
  intros Hab Ht. rewrite clamp_ordered by lra.
  unfold Rmax, Rmin. repeat destruct (Rle_dec _ _); lra.
Qed.

Lemma clamp_above (t a b : R) : a <= b -> b <= t -> clamp t a b = b.
Proof.
  intros Hab Ht. rewrite clamp_ordered by lra.
  unfold Rmax, Rmin. repeat destruct (Rle_dec _ _); lra.
Qed.

Lemma clamp01_bounds (t : R) : 0 <= clamp01 t <= 1.
Proof. apply clamp_bounds. lra. Qed.

Lemma clamp01_inside (t : R) : 0 <= t <= 1 -> clamp01 t = t.
Proof. apply clamp_inside. Qed.

Lemma clamp01_zero (t : R) : t <= 0 -> clamp01 t = 0.
Proof. intros Ht. apply clamp_below; lra. Qed.

(** On integers [clamp] is the integer clamp. *)
Lemma clamp_IZR (z n : Z) :
  (0 <= n)%Z -> clamp (IZR z) 0 (IZR n) = IZR (Z.max 0 (Z.min z n)).
Proof.
  intros Hn. pose proof (IZR_le _ _ Hn) as HnR.
  destruct (Z_lt_le_dec z 0) as [Hz|Hz].
  - rewrite clamp_below; [|lra|apply IZR_le; lia].
    f_equal. lia.
  - destruct (Z_lt_le_dec n z) as [Hzn|Hzn].
    + rewrite clamp_above; [|lra|apply IZR_le; lia]. f_equal. lia.
    + rewrite clamp_inside by (split; apply IZR_le; lia). f_equal. lia.
Qed.


(** ** The stroke algebra *)

Lemma get_assign (k : Key) (p q : LinePointPartial) :
  get k (assign p q) = override (get k p) (get k q).
Proof. destruct k; reflexivity. Qed.

Lemma Object_assign_empty (p : PointObject) : Object_assign emptyObject p = p.
Proof.
  destruct p as [x y r g b a w]. unfold Object_assign. cbn.
  destruct x, y, r, g, b, a, w; reflexivity.
Qed.

Lemma own_Object_assign (k : Key) (p q : PointObject) :
  own k (Object_assign p q) = copy (own k p) (own k q).
Proof. destruct k; reflexivity. Qed.

Lemma Object_assign_overrides (p q : PointObject) :
  overrides p q (Object_assign p q).
Proof. intros k. rewrite own_Object_assign. reflexivity. Qed.

(** A property that holds a number in the overriding object is read as that
    number in the merged one. *)
Lemma overrides_defined (p o q : PointObject) (k : Key) (v : R) :
  overrides p o q -> read k o = Some v -> read k q = Some v.
Proof.
  intros H. specialize (H k). unfold read in *. rewrite H.
  destruct (own k o) as [[u|]|]; intros E; (exact E || discriminate).
Qed.

(** When no property of the overriding object holds [undefined], the
    precedence by own property is the precedence by defined values. *)
Lemma overrides_falls_through (p o q : PointObject) :
  all_numbers o -> overrides p o q -> falls_through p o q.
Proof.
  intros Hnum H k. specialize (H k). specialize (Hnum k). unfold read in *.
  rewrite H. destruct (own k o) as [[u|]|]; [discriminate | contradiction | reflexivity].
Qed.

Lemma all_numbers_ofPartial (p : LinePointPartial) : all_numbers (ofPartial p).
Proof.
  intros k. destruct p as [x y r g b a w].
  destruct k; cbn;
    match goal with |- context [Some <$> ?o] => destruct o end; discriminate.
Qed.

(** On objects with no [undefined] property [Object.assign] is [assign]. *)
Lemma Object_assign_ofPartial (p q : LinePointPartial) :
  Object_assign (ofPartial p) (ofPartial q) = ofPartial (assign p q).
Proof.
  destruct p as [x y r g b a w], q as [x' y' r' g' b' a' w'].
  unfold Object_assign, ofPartial, assign. cbn.
  destruct x', y', r', g', b', a', w'; reflexivity.
Qed.

(** On curves and records with no [undefined] property the three
    combinators on objects are those of [Stroke]. *)
Lemma ofStroke_merge (c : Stroke.t) (t : R) :
  (forall f,
      ObjectStroke.evaluate
        (ObjectStroke.parametric (ofStroke c) (fun u => ofPartial (f u))) t =
      ofPartial <$> Stroke.evaluate (Stroke.parametric c f) t) /\
  (forall f f',
      (forall p, f' (ofPartial p) = ofPartial (f p)) ->
      ObjectStroke.evaluate (ObjectStroke.transform (ofStroke c) f') t =
      ofPartial <$> Stroke.evaluate (Stroke.transform c f) t) /\
  (forall point,
      ObjectStroke.evaluate
        (ObjectStroke.fix_ (ofStroke c) (ofPartial point)) t =
      ofPartial <$> Stroke.evaluate (Stroke.fix_ c point) t).
Proof.
  unfold ObjectStroke.evaluate, Stroke.evaluate. repeat split.
  - intros f. cbn. destruct (Stroke._evaluator c t) as [p|]; [|reflexivity].
    cbn. rewrite Object_assign_empty, Object_assign_ofPartial. reflexivity.
  - intros f f' Hf. cbn. destruct (Stroke._evaluator c t) as [p|]; [|reflexivity].
    cbn. rewrite Object_assign_empty, Hf, Object_assign_ofPartial. reflexivity.
  - intros point. cbn. destruct (Stroke._evaluator c t) as [p|]; [|reflexivity].
    cbn. rewrite Object_assign_empty, Object_assign_ofPartial. reflexivity.
Qed.

(** C3 (as the code has it): in [parametric], [transform] and [fix], the
    merged sample has every own property of the overriding record (the result
    of the function, or the fixed point), one that holds [undefined]
    included, and the parent's property where the overriding record has
    none. *)
Theorem merge_by_own_property (c : ObjectStroke.t) (t : R) (p : PointObject) :
  ObjectStroke.evaluate c t = Some p ->
  (forall f, exists q,
      ObjectStroke.evaluate (ObjectStroke.parametric c f) t = Some q /\
      overrides p (f t) q) /\
  (forall f, exists q,
      ObjectStroke.evaluate (ObjectStroke.transform c f) t = Some q /\
      overrides p (f p) q) /\
  (forall point, exists q,
      ObjectStroke.evaluate (ObjectStroke.fix_ c point) t = Some q /\
      overrides p point q).
Proof.
  unfold ObjectStroke.evaluate. intros Hp. repeat split.
  - intros f. exists (Object_assign p (f t)). cbn. rewrite Hp.
    rewrite Object_assign_empty.
    split; [reflexivity | apply Object_assign_overrides].
  - intros f. exists (Object_assign p (f p)). cbn. rewrite Hp.
    rewrite Object_assign_empty.
    split; [reflexivity | apply Object_assign_overrides].
  - intros point. exists (Object_assign p point). cbn. rewrite Hp.
    rewrite Object_assign_empty.
    split; [reflexivity | apply Object_assign_overrides].
Qed.

Lemma merge_by_own_property_witness :
  exists q,
    ObjectStroke.evaluate
      (ObjectStroke.fix_
         (ObjectStroke.fix_ ObjectStroke.new
            (mkObject (Some (Some 1)) (Some (Some 2)) None None None None None))
         (mkObject (Some None) None None None None None None)) 0 = Some q /\
    overrides
      (mkObject (Some (Some 1)) (Some (Some 2)) None None None None None)
      (mkObject (Some None) None None None None None None) q.
Proof.
  apply (merge_by_own_property
           (ObjectStroke.fix_ ObjectStroke.new
              (mkObject (Some (Some 1)) (Some (Some 2)) None None None None None))
           0
           (mkObject (Some (Some 1)) (Some (Some 2)) None None None None None)).
  reflexivity.
Defined.

(** [fix({x: 1, y: 2}).fix({x: undefined})]: the second record leaves [x]
    undefined, and the merged sample has [x] undefined, not the parent's 1. *)
Lemma undefined_replaces_parent :
  ObjectStroke.evaluate
    (ObjectStroke.fix_ ObjectStroke.new
       (mkObject (Some (Some 1)) (Some (Some 2)) None None None None None)) 0 =
    Some (mkObject (Some (Some 1)) (Some (Some 2)) None None None None None) /\
  ObjectStroke.evaluate
    (ObjectStroke.fix_
       (ObjectStroke.fix_ ObjectStroke.new
          (mkObject (Some (Some 1)) (Some (Some 2)) None None None None None))
       (mkObject (Some None) None None None None None None)) 0 =
    Some (mkObject (Some None) (Some (Some 2)) None None None None None) /\
  read Kx (mkObject (Some None) None None None None None None) = None /\
  ~ falls_through
      (mkObject (Some (Some 1)) (Some (Some 2)) None None None None None)
      (mkObject (Some None) None None None None None None)
      (mkObject (Some None) (Some (Some 2)) None None None None None).
Proof.
  split; [reflexivity|]. split; [reflexivity|]. split; [reflexivity|].
  intros H. specialize (H Kx eq_refl). discriminate.
Qed.

(** C6: [cut(t0, t1)] evaluates the curve at [(1 - t) * t0 + t * t1]; at 0
    and 1 [cut(0.25, 0.75)] gives the curve at 0.25 and at 0.75. *)
Theorem cut_affine (c : Stroke.t) :
  (forall t0 t1 t,
      Stroke.evaluate (Stroke.cut c t0 t1) t = Stroke.evaluate c (lerp t t0 t1)) /\
  Stroke.evaluate (Stroke.cut c (25 / 100) (75 / 100)) 0 =
    Stroke.evaluate c (25 / 100) /\
  Stroke.evaluate (Stroke.cut c (25 / 100) (75 / 100)) 1 =
    Stroke.evaluate c (75 / 100).
Proof.
  unfold Stroke.evaluate, Stroke.cut, Stroke.slide, lerp. cbn.
  repeat split; intros; f_equal; lra.
Qed.

Lemma matrix_undefined (c : Stroke.t) (t : R) (p : LinePointPartial)
    (a b c' d e f : R) :
  Stroke.evaluate c t = Some p ->
  px p = None \/ py p = None ->
  Stroke.evaluate (Stroke.matrix c a b c' d e f) t = Some p.
Proof.
  unfold Stroke.evaluate. cbn. intros -> [H|H]; rewrite H.
  - reflexivity.
  - destruct (px p); reflexivity.
Qed.

Lemma matrix_defined (c : Stroke.t) (t : R) (p : LinePointPartial)
    (a b c' d e f x y : R) :
  Stroke.evaluate c t = Some p ->
  px p = Some x -> py p = Some y ->
  Stroke.evaluate (Stroke.matrix c a b c' d e f) t =
    Some (moved p (a * x + c' * y + e) (b * x + d * y + f)).
Proof.
  unfold Stroke.evaluate. cbn. intros -> -> ->.
  unfold assign, moved. cbn. destruct p; reflexivity.
Qed.

(** C7: [translate], [scale], [rotate] and [matrix] return the sample of the
    curve unchanged when its [x] or [y] is undefined; otherwise they keep
    [r], [g], [b], [a], [w] and replace [x] and [y] by their image under the
    affine map. *)
Theorem affine_frame (c : Stroke.t) (t : R) (p : LinePointPartial) :
  Stroke.evaluate c t = Some p ->
  (px p = None \/ py p = None ->
     (forall a b c' d e f,
         Stroke.evaluate (Stroke.matrix c a b c' d e f) t = Some p) /\
     (forall dx dy, Stroke.evaluate (Stroke.translate c dx dy) t = Some p) /\
     (forall sx sy cx cy,
         Stroke.evaluate (Stroke.scale c sx sy cx cy) t = Some p) /\
     (forall angle cx cy,
         Stroke.evaluate (Stroke.rotate c angle cx cy) t = Some p)) /\
  (forall x y, px p = Some x -> py p = Some y ->
     (forall a b c' d e f,
         Stroke.evaluate (Stroke.matrix c a b c' d e f) t =
           Some (moved p (a * x + c' * y + e) (b * x + d * y + f))) /\
     (forall dx dy,
         Stroke.evaluate (Stroke.translate c dx dy) t =
           Some (moved p (x + dx) (y + dy))) /\
     (forall sx sy cx cy,
         Stroke.evaluate (Stroke.scale c sx sy cx cy) t =
           Some (moved p (cx + sx * (x - cx)) (cy + sy * (y - cy)))) /\
     (forall angle cx cy,
         Stroke.evaluate (Stroke.rotate c angle cx cy) t =
           Some (moved p
                   (cx + (cos angle * (x - cx) - sin angle * (y - cy)))
                   (cy + (sin angle * (x - cx) + cos angle * (y - cy)))))).
Proof.
  intros Hp. split.
  - intros Hu. repeat split; intros;
      unfold Stroke.translate, Stroke.scale, Stroke.rotate;
      apply matrix_undefined; assumption.
  - intros x y Hx Hy. repeat split; intros;
      unfold Stroke.translate, Stroke.scale, Stroke.rotate;
      rewrite (matrix_defined _ _ _ _ _ _ _ _ _ _ _ Hp Hx Hy);
      unfold moved; do 2 f_equal; f_equal; ring.
Qed.

Lemma affine_frame_witness :
  Stroke.evaluate (Stroke.translate (Stroke.fix_ Stroke.new
      (mkPartial (Some 1) (Some 2) (Some 1) None None None None)) 3 4) 0 =
    Some (moved (mkPartial (Some 1) (Some 2) (Some 1) None None None None)
                (1 + 3) (2 + 4)).
Proof.
  pose proof (affine_frame
    (Stroke.fix_ Stroke.new
       (mkPartial (Some 1) (Some 2) (Some 1) None None None None))
    0 (mkPartial (Some 1) (Some 2) (Some 1) None None None None)
    eq_refl) as [_ H].
  destruct (H 1 2 eq_refl eq_refl) as (_ & Ht & _).
  exact (Ht 3 4).
Defined.

Lemma at_index_IZR (strokes : list Stroke.t) (i : Z) :
  (0 <= i)%Z -> Stroke.at_index strokes (IZR i) = strokes !! Z.to_nat i.
Proof.
  intros Hi. unfold Stroke.at_index. rewrite ZfloorZ.
  destruct (Req_dec_T (IZR i) (IZR i)); [|congruence].
  destruct (Rle_dec 0 (IZR i)) as [|n]; [reflexivity|].
  exfalso. apply n. apply IZR_le. assumption.
Qed.

Lemma sequence_index (strokes : list Stroke.t) (t : R) :
  strokes <> [] ->
  clamp (IZR (Zfloor (t * INR (length strokes)))) 0 (INR (length strokes) - 1) =
  IZR (Z.max 0 (Z.min (Zfloor (t * INR (length strokes)))
                      (Z.of_nat (length strokes) - 1))).
Proof.
  intros Hne. rewrite INR_IZR_INZ, <- (minus_IZR _ 1).
  apply clamp_IZR. destruct strokes; [congruence | cbn [length]; lia].
Qed.

Lemma sequence_lookup (curves : list Stroke.t) (t : R) :
  curves <> [] ->
  exists c,
    curves !! Z.to_nat (interval (length curves) t) = Some c /\
    Stroke.evaluate (Stroke.sequence curves) t =
      Stroke.evaluate c
        (INR (length curves) * t - IZR (interval (length curves) t)).
Proof.
  intros Hne. unfold interval.
  assert (HN : (0 < length curves)%nat)
    by (destruct curves; [congruence | cbn; lia]).
  set (i := Z.max 0 _).
  assert (Hi : (0 <= i < Z.of_nat (length curves))%Z) by (subst i; lia).
  destruct (lookup_lt_is_Some_2 curves (Z.to_nat i)) as [c Hc]; [lia|].
  exists c. split; [exact Hc|].
  unfold Stroke.evaluate, Stroke.sequence. cbn.
  rewrite sequence_index by assumption.
  replace (t * INR (length curves)) with (INR (length curves) * t) by ring.
  fold i. rewrite at_index_IZR by lia. rewrite Hc. reflexivity.
Qed.

(** C5: for a non-empty list of [N] curves, [sequence] evaluates at [t] the
    curve number [i] at [N * t - i], where [i] is [floor (N * t)] clamped to
    [0, N - 1]: a [t] below 0 uses the first curve and a [t] from 1 on the
    last one.  For two curves, 0.25 is the middle of the first and 0.75 the
    middle of the second. *)
Theorem sequence_dispatch :
  (forall (curves : list Stroke.t) (t : R),
      curves <> [] ->
      let N := length curves in
      (exists c,
          curves !! Z.to_nat (interval N t) = Some c /\
          Stroke.evaluate (Stroke.sequence curves) t =
            Stroke.evaluate c (INR N * t - IZR (interval N t))) /\
      (t < 0 -> interval N t = 0%Z) /\
      (1 <= t -> interval N t = (Z.of_nat N - 1)%Z)) /\
  (forall A B : Stroke.t,
      Stroke.evaluate (Stroke.sequence [A; B]) (25 / 100) =
        Stroke.evaluate A (5 / 10) /\
      Stroke.evaluate (Stroke.sequence [A; B]) (75 / 100) =
        Stroke.evaluate B (5 / 10)).
Proof.
  split.
  - intros curves t Hne N. split; [apply sequence_lookup; assumption|].
    assert (HN : (0 < N)%nat)
      by (subst N; destruct curves; [congruence | cbn; lia]).
    assert (HNR : 1 <= INR N) by (apply (le_INR 1); lia).
    unfold interval. split; intros Ht.
    + assert (Zfloor (INR N * t) < 0)%Z; [|lia].
      apply lt_IZR. pose proof (Zfloor_bound (INR N * t)). nra.
    + assert (Z.of_nat N <= Zfloor (INR N * t))%Z; [|lia].
      apply Zfloor_lub. rewrite <- INR_IZR_INZ. nra.
  - intros A B.
    assert (H1 : interval 2 (25 / 100) = 0%Z).
    { unfold interval. rewrite (Zfloor_eq 0); [reflexivity|]. cbn. lra. }
    assert (H2 : interval 2 (75 / 100) = 1%Z).
    { unfold interval. rewrite (Zfloor_eq 1); [reflexivity|]. cbn. lra. }
    split.
    + destruct (sequence_lookup [A; B] (25 / 100)) as (c & Hc & ->);
        [discriminate|].
      cbn [length] in *. rewrite H1 in *. cbn in Hc. inversion Hc; subst c.
      f_equal. cbn. lra.
    + destruct (sequence_lookup [A; B] (75 / 100)) as (c & Hc & ->);
        [discriminate|].
      cbn [length] in *. rewrite H2 in *. cbn in Hc. inversion Hc; subst c.
      f_equal. cbn. lra.
Qed.

Lemma sequence_dispatch_witness :
  exists c,
    [Stroke.new] !! Z.to_nat (interval 1 2) = Some c /\
    Stroke.evaluate (Stroke.sequence [Stroke.new]) 2 =
      Stroke.evaluate c (INR 1 * 2 - IZR (interval 1 2)).
Proof.
  destruct sequence_dispatch as [H _].
  destruct (H [Stroke.new] 2) as [Hc _]; [discriminate|].
  exact Hc.
Defined.

(** C10: [sequence([])] yields no sample at any [t]: the index
    [clamp(floor(t * 0), 0, -1)] is 0, because [clamp] swaps the inverted
    bounds, and the empty array has no element 0. *)
Theorem sequence_empty (t : R) :
  clamp (IZR (Zfloor (t * INR (length (@nil Stroke.t))))) 0
        (INR (length (@nil Stroke.t)) - 1) = 0 /\
  Stroke.at_index [] 0 = None /\
  Stroke.evaluate (Stroke.sequence []) t = None.
Proof.
  assert (Hc : clamp (IZR (Zfloor (t * INR (length (@nil Stroke.t))))) 0
                 (INR (length (@nil Stroke.t)) - 1) = 0).
  { cbn. rewrite Rmult_0_r, ZfloorZ, clamp_swapped by lra.
    unfold Rmax, Rmin. repeat destruct (Rle_dec _ _); lra. }
  assert (Ha : Stroke.at_index [] 0 = None).
  { unfold Stroke.at_index. repeat destruct (_ : {_} + {_}); reflexivity. }
  repeat split; [exact Hc | exact Ha |].
  unfold Stroke.evaluate, Stroke.sequence. cbn [Stroke._evaluator].
  rewrite Hc, Ha. reflexivity.
Qed.

(** ** Compositing a pixel *)

(** C9: outside the bounds of the buffer ([x < 0], [x >= width], [y < 0] or
    [y >= height]) [drawPixel] returns the image as it received it, whatever
    the colour, the alpha and the coverage. *)
Theorem drawPixel_outside (data : ImageData) (x y : Z) (r g b : jsnum)
    (a blend : R) :
  (x < 0 \/ width data <= x \/ y < 0 \/ height data <= y)%Z ->
  drawPixel data x y r g b a blend = data.
Proof.
  intros H. unfold drawPixel.
  destruct ((x <? 0) || (x >=? width data) || (y <? 0) || (y >=? height data))%Z
    eqn:E; [reflexivity|].
  repeat (apply orb_false_elim in E; destruct E as [E ?]). lia.
Qed.

Lemma drawPixel_outside_witness :
  drawPixel (mkImage 1 1 [0; 0; 0; 255]%Z) 1 0 (Fin 1) (Fin 1) (Fin 1) 1 1 =
    mkImage 1 1 [0; 0; 0; 255]%Z.
Proof.
  apply (drawPixel_outside (mkImage 1 1 [0; 0; 0; 255]%Z) 1 0).
  cbn. lia.
Defined.

Lemma in_bounds_test (data : ImageData) (x y : Z) :
  in_bounds data x y ->
  ((x <? 0) || (x >=? width data) || (y <? 0) || (y >=? height data))%Z = false.
Proof.
  intros [Hx Hy].
  repeat (apply orb_false_intro); lia.
Qed.

Lemma offset_range (data : ImageData) (x y : Z) :
  well_formed data -> in_bounds data x y ->
  (0 <= offset data x y /\
   offset data x y + 3 < Z.of_nat (length (pixels data)))%Z.
Proof.
  intros (Hw & Hh & Hlen & _) [Hx Hy]. unfold offset. rewrite Hlen. nia.
Qed.

Lemma load_Some (d : list Z) (i : Z) :
  (0 <= i < Z.of_nat (length d))%Z -> exists v, load d i = Some v.
Proof.
  intros Hi. unfold load. destruct (0 <=? i)%Z eqn:E; [|lia].
  apply lookup_lt_is_Some_2. lia.
Qed.

Lemma length_store (d : list Z) (i : Z) (v : jsnum) :
  length (store d i v) = length d.
Proof. unfold store. destruct (0 <=? i)%Z; [apply length_insert | reflexivity]. Qed.

Lemma load_store_eq (d : list Z) (i : Z) (v : jsnum) :
  (0 <= i < Z.of_nat (length d))%Z ->
  load (store d i v) i = Some (ToUint8Clamp v).
Proof.
  intros Hi. unfold load, store. destruct (0 <=? i)%Z eqn:E; [|lia].
  apply list_lookup_insert_eq. lia.
Qed.

Lemma load_store_ne (d : list Z) (i j : Z) (v : jsnum) :
  i <> j -> load (store d i v) j = load d j.
Proof.
  intros Hij. unfold load, store.
  destruct (0 <=? j)%Z eqn:Ej; [|reflexivity].
  destruct (0 <=? i)%Z eqn:Ei; [|reflexivity].
  apply list_lookup_insert_ne. lia.
Qed.

Lemma ToUint8Clamp_byte (z : Z) :
  (0 <= z <= 255)%Z -> ToUint8Clamp (Fin (IZR z)) = z.
Proof.
  intros [H0 H255]. unfold ToUint8Clamp.
  destruct (Rle_dec (IZR z) 0) as [Hz|Hz].
  - apply le_IZR in Hz. lia.
  - destruct (Rle_dec 255 (IZR z)) as [Hz'|Hz'].
    + apply le_IZR in Hz'. lia.
    + rewrite ZfloorZ.
      destruct (Rlt_dec (IZR z + 5 / 10) (IZR z)); [lra|].
      destruct (Rlt_dec (IZR z) (IZR z + 5 / 10)); [reflexivity | lra].
Qed.

Lemma channelByte_Fin (c : R) :
  channelByte (Fin c) = Some (Zfloor (clamp01 c * 255)) /\
  (0 <= Zfloor (clamp01 c * 255) <= 255)%Z.
Proof.
  split; [reflexivity|].
  pose proof (clamp01_bounds c) as Hc.
  pose proof (Zfloor_bound (clamp01 c * 255)) as Hf.
  split.
  - apply Zfloor_lub. lra.
  - assert (Zfloor (clamp01 c * 255) < 256)%Z; [|lia].
    apply lt_IZR. lra.
Qed.

(** The first rule: when the coverage is at least the old alpha, the pixel
    is replaced, and the stored alpha is the byte of [a * blend]. *)
Lemma drawPixel_replace (data : ImageData) (x y old : Z) (r g b a blend : R) :
  well_formed data -> in_bounds data x y ->
  load (pixels data) (offset data x y + 3) = Some old ->
  IZR old / 255 <= blend ->
  0 <= a <= 1 -> 0 <= blend <= 1 ->
  let i := offset data x y in
  let out := pixels (drawPixel data x y (Fin r) (Fin g) (Fin b) a blend) in
  load out (i + 0) = Some (Zfloor (clamp01 r * 255)) /\
  load out (i + 1) = Some (Zfloor (clamp01 g * 255)) /\
  load out (i + 2) = Some (Zfloor (clamp01 b * 255)) /\
  load out (i + 3) = Some (Zfloor (a * blend * 255)) /\
  (forall j, (j < i \/ i + 3 < j)%Z -> load out j = load (pixels data) j).
Proof.
  intros Hwf Hin Hold Hle Ha Hb i out.
  pose proof (offset_range data x y Hwf Hin) as Hi. fold i in Hi.
  subst out. unfold drawPixel. rewrite (in_bounds_test _ _ _ Hin).
  fold (offset data x y). fold i. fold i in Hold. rewrite Hold.
  destruct (Rle_dec (IZR old / 255) blend) as [_|]; [|contradiction].
  cbn [pixels ofByte]. rewrite !(proj1 (channelByte_Fin _)). cbn [ofByte].
  rewrite (clamp01_inside a) by lra.
  assert (Hfa : (0 <= Zfloor (a * blend * 255) <= 255)%Z).
  { pose proof (Zfloor_bound (a * blend * 255)) as Hf. split.
    - apply Zfloor_lub. nra.
    - assert (Zfloor (a * blend * 255) < 256)%Z; [|lia]. apply lt_IZR. nra. }
  repeat split.
  - rewrite !load_store_ne by lia. rewrite load_store_eq by lia.
    f_equal. apply ToUint8Clamp_byte, channelByte_Fin.
  - rewrite !load_store_ne by lia.
    rewrite load_store_eq by (rewrite !length_store; lia).
    f_equal. apply ToUint8Clamp_byte, channelByte_Fin.
  - rewrite !load_store_ne by lia.
    rewrite load_store_eq by (rewrite !length_store; lia).
    f_equal. apply ToUint8Clamp_byte, channelByte_Fin.
  - rewrite load_store_eq by (rewrite !length_store; lia).
    f_equal. apply ToUint8Clamp_byte, Hfa.
  - intros j Hj. rewrite !load_store_ne by lia. reflexivity.
Qed.

(** The third rule: a pixel that is neither opaque nor less covered than the
    new one is left as it is. *)
Lemma drawPixel_keep (data : ImageData) (x y old : Z) (r g b : jsnum)
    (a blend : R) :
  in_bounds data x y ->
  load (pixels data) (offset data x y + 3) = Some old ->
  blend < IZR old / 255 -> IZR old / 255 < 1 ->
  drawPixel data x y r g b a blend = data.
Proof.
  intros Hin Hold Hlt Hop. unfold drawPixel.
  rewrite (in_bounds_test _ _ _ Hin). fold (offset data x y). rewrite Hold.
  destruct (Rle_dec (IZR old / 255) blend); [lra|].
  destruct (Req_dec_T (IZR old / 255) 1); [lra | reflexivity].
Qed.

Lemma lerp_alpha_pos (blend a : R) :
  0 <= blend < 1 -> 0 <= a -> 0 < lerp blend 1 a.
Proof. intros Hb Ha. unfold lerp. nra. Qed.

Lemma jsdiv_Fin (n d : R) : d <> 0 -> jsdiv n d = Fin (n / d).
Proof. intros Hd. unfold jsdiv. destruct (Req_dec_T d 0); [contradiction | reflexivity]. Qed.

(** The second rule as the code computes it: over an opaque pixel the stored
    alpha is the byte of [lerp blend 1 a], and each colour is
    [lerp blend old (c * a') / a'] where [a'] is that interpolated alpha. *)
Lemma drawPixel_blend (data : ImageData) (x y o0 o1 o2 : Z) (r g b a blend : R) :
  well_formed data -> in_bounds data x y ->
  let i := offset data x y in
  load (pixels data) (i + 0) = Some o0 ->
  load (pixels data) (i + 1) = Some o1 ->
  load (pixels data) (i + 2) = Some o2 ->
  load (pixels data) (i + 3) = Some 255%Z ->
  0 <= blend < 1 -> 0 <= a <= 1 ->
  let a' := lerp blend 1 a in
  let mix o c :=
    ToUint8Clamp
      (Fin (lerp blend (IZR o) (IZR (Zfloor (clamp01 c * 255)) * a') / a')) in
  let out := pixels (drawPixel data x y (Fin r) (Fin g) (Fin b) a blend) in
  load out (i + 0) = Some (mix o0 r) /\
  load out (i + 1) = Some (mix o1 g) /\
  load out (i + 2) = Some (mix o2 b) /\
  load out (i + 3) = Some (ToUint8Clamp (Fin (IZR (Zfloor (a' * 255))))) /\
  (forall j, (j < i \/ i + 3 < j)%Z -> load out j = load (pixels data) j).
Proof.
  intros Hwf Hin i H0 H1 H2 H3 Hb Ha a' mix out.
  pose proof (offset_range data x y Hwf Hin) as Hi. fold i in Hi.
  pose proof (lerp_alpha_pos blend a Hb (proj1 Ha)) as Hpos. fold a' in Hpos.
  assert (Hone : IZR 255 / 255 = 1) by lra.
  subst out. unfold drawPixel. rewrite (in_bounds_test _ _ _ Hin).
  fold (offset data x y). fold i. rewrite H3.
  destruct (Rle_dec (IZR 255 / 255) blend) as [Hle|_]; [lra|].
  destruct (Req_dec_T (IZR 255 / 255) 1) as [_|]; [|contradiction].
  cbn [pixels]. rewrite !(proj1 (channelByte_Fin _)).
  rewrite (clamp01_inside a) by lra. rewrite Hone. fold a'.
  rewrite H0.
  rewrite (load_store_ne _ (i + 0) (i + 1)) by lia. rewrite H1.
  rewrite !(load_store_ne _ _ (i + 2)) by lia. rewrite H2.
  cbn [blendChannel]. rewrite !jsdiv_Fin by lra.
  repeat split.
  - rewrite ?load_store_ne by lia. apply load_store_eq. lia.
  - rewrite ?load_store_ne by lia.
    apply load_store_eq. rewrite ?length_store; lia.
  - rewrite ?load_store_ne by lia.
    apply load_store_eq. rewrite ?length_store; lia.
  - apply load_store_eq. rewrite ?length_store; lia.
  - intros j Hj. rewrite ?load_store_ne by lia. reflexivity.
Qed.

(** For an opaque new colour the second rule is source-over: the pixel stays
    opaque and each colour is the source-over of the new byte on the old. *)
Lemma drawPixel_blend_opaque (data : ImageData) (x y o0 o1 o2 : Z)
    (r g b blend : R) :
  well_formed data -> in_bounds data x y ->
  let i := offset data x y in
  load (pixels data) (i + 0) = Some o0 ->
  load (pixels data) (i + 1) = Some o1 ->
  load (pixels data) (i + 2) = Some o2 ->
  load (pixels data) (i + 3) = Some 255%Z ->
  0 <= blend < 1 ->
  let over o c :=
    ToUint8Clamp
      (Fin (sourceOver blend (IZR o) (IZR (Zfloor (clamp01 c * 255))) 1)) in
  let out := pixels (drawPixel data x y (Fin r) (Fin g) (Fin b) 1 blend) in
  load out (i + 0) = Some (over o0 r) /\
  load out (i + 1) = Some (over o1 g) /\
  load out (i + 2) = Some (over o2 b) /\
  load out (i + 3) = Some 255%Z.
Proof.
  intros Hwf Hin i H0 H1 H2 H3 Hb over out.
  destruct (drawPixel_blend data x y o0 o1 o2 r g b 1 blend Hwf Hin
              H0 H1 H2 H3 Hb ltac:(lra)) as (E0 & E1 & E2 & E3 & _).
  fold i in E0, E1, E2, E3. fold out in E0, E1, E2, E3.
  assert (Hl : lerp blend 1 1 = 1) by (unfold lerp; ring).
  rewrite Hl in E0, E1, E2, E3.
  subst over. unfold sourceOver. rewrite Hl, !Rmult_1_r.
  rewrite !Rmult_1_r in E0, E1, E2.
  repeat split; try assumption.
  rewrite E3. f_equal. rewrite Rmult_1_l, ZfloorZ.
  apply ToUint8Clamp_byte. lia.
Qed.

(** For a translucent new colour the value the code stores exceeds the
    source-over: the difference is [blend * c * (a' - a) / a']. *)
Lemma blend_exceeds_sourceOver (blend old c a : R) :
  0 < blend < 1 -> 0 <= a < 1 -> 0 < c ->
  let a' := lerp blend 1 a in
  sourceOver blend old c a < lerp blend old (c * a') / a'.
Proof.
  intros Hb Ha Hc a'.
  assert (Hpos : 0 < a') by (apply lerp_alpha_pos; lra).
  assert (Hgt : a < a') by (subst a'; unfold lerp; nra).
  unfold sourceOver. fold a'.
  apply Rmult_lt_compat_r; [apply Rinv_0_lt_compat; exact Hpos|].
  clearbody a'. unfold lerp.
  assert (Hbc : 0 < blend * c) by nra.
  nra.
Qed.

Lemma ToUint8Clamp_tie_odd (f : Z) (v : R) :
  (0 <= f < 255)%Z -> Z.even f = false -> v = IZR f + 5 / 10 ->
  ToUint8Clamp (Fin v) = (f + 1)%Z.
Proof.
  intros Hf Hodd ->. unfold ToUint8Clamp.
  assert (H0 : 0 <= IZR f) by (apply IZR_le; lia).
  assert (H1 : IZR f <= 254) by (apply IZR_le; lia).
  destruct (Rle_dec _ 0); [lra|].
  destruct (Rle_dec 255 _); [lra|].
  rewrite (Zfloor_eq f) by lra.
  destruct (Rlt_dec _ _); [lra|].
  rewrite Hodd. reflexivity.
Qed.

(** C1: the second compositing rule at a translucent colour.  White of alpha
    0.5 drawn with coverage 0.5 on an opaque black pixel: [drawPixel] stores
    128 in each colour and 191 as alpha, because the new colour is multiplied
    by the interpolated alpha instead of its own; the source-over of the
    specification gives the colour 85. *)
Theorem drawPixel_blend_translucent :
  drawPixel (mkImage 1 1 [0; 0; 0; 255]%Z) 0 0 (Fin 1) (Fin 1) (Fin 1)
            (1 / 2) (1 / 2) =
    mkImage 1 1 [128; 128; 128; 191]%Z /\
  ToUint8Clamp (Fin (sourceOver (1 / 2) 0 255 (1 / 2))) = 85%Z.
Proof.
  split.
  - unfold drawPixel. cbn [width height pixels orb Z.ltb Z.geb Z.compare].
    assert (Hc : channelByte (Fin 1) = Some 255%Z).
    { unfold channelByte, clamp01N. rewrite clamp01_inside by lra.
      rewrite Rmult_1_l, ZfloorZ. reflexivity. }
    rewrite Hc. rewrite (clamp01_inside (1 / 2)) by lra.
    change ((0 * 1 + 0) * 4 + 0)%Z with 0%Z.
    change ((0 * 1 + 0) * 4 + 1)%Z with 1%Z.
    change ((0 * 1 + 0) * 4 + 2)%Z with 2%Z.
    change ((0 * 1 + 0) * 4 + 3)%Z with 3%Z.
    change (load [0; 0; 0; 255]%Z 3) with (Some 255%Z).
    cbv iota beta.
    destruct (Rle_dec (IZR 255 / 255) (1 / 2)); [lra|].
    destruct (Req_dec_T (IZR 255 / 255) 1); [|lra].
    replace (lerp (1 / 2) (IZR 255 / 255) (1 / 2)) with (3 / 4)
      by (unfold lerp; lra).
    rewrite !(load_store_ne _ _ 2) by lia.
    rewrite !(load_store_ne _ _ 1) by lia.
    change (load [0; 0; 0; 255]%Z 0) with (Some 0%Z).
    change (load [0; 0; 0; 255]%Z 1) with (Some 0%Z).
    change (load [0; 0; 0; 255]%Z 2) with (Some 0%Z).
    assert (Hm : blendChannel (1 / 2) (Some 0%Z) (Some 255%Z) (3 / 4) =
                 Fin (IZR 127 + 5 / 10)).
    { cbn [blendChannel]. rewrite jsdiv_Fin by lra. f_equal.
      unfold lerp. lra. }
    rewrite Hm.
    replace (3 / 4 * 255) with (IZR 191 + 1 / 4) by lra.
    rewrite (Zfloor_eq 191) by lra.
    unfold store.
    rewrite (ToUint8Clamp_tie_odd 127 (IZR 127 + 5 / 10)) by (reflexivity || lia).
    rewrite (ToUint8Clamp_byte 191) by lia.
    reflexivity.
  - unfold sourceOver, lerp.
    replace ((1 - 1 / 2) * (0 * 1) + 1 / 2 * (255 * (1 / 2))) with (IZR 85 * (3 / 4))
      by lra.
    replace ((1 - 1 / 2) * 1 + 1 / 2 * (1 / 2)) with (3 / 4) by lra.
    replace (IZR 85 * (3 / 4) / (3 / 4)) with (IZR 85) by (field; lra).
    apply ToUint8Clamp_byte. lia.
Qed.

(** ** Bezier interpolation *)

Lemma removelast_nonempty {A} (v w : A) (vs : list A) :
  removelast (v :: w :: vs) <> [].
Proof. cbn. discriminate. Qed.


(** The interpolation of an array is unique. *)
Lemma DeCasteljau_functional (t : R) (values : list R) (v v' : R) :
  DeCasteljau t values v -> DeCasteljau t values v' -> v = v'.
Proof.
  intros H. revert v'.
  induction H as [v | values p q Hlen Hp IHp Hq IHq]; intros v' H'.
  - inversion H' as [|? ? ? Hlen' ]; subst; [reflexivity | cbn in Hlen'; lia].
  - inversion H' as [u Hu|? p' q' _ Hp' Hq']; subst.
    + cbn in Hlen; lia.
    + rewrite (IHp _ Hp'), (IHq _ Hq'). reflexivity.
Qed.

Lemma get_set (k k' : Key) (v : option R) (p : LinePointPartial) :
  get k (set k' v p) = if decide (k = k') then v else get k p.
Proof. destruct k, k'; reflexivity. Qed.

Lemma elem_of_keys (k : Key) (p : LinePointPartial) :
  k ∈ keys p <-> is_Some (get k p).
Proof.
  unfold keys. rewrite list_elem_of_filter.
  split; [tauto|]. intros H. split; [exact H|].
  destruct k; apply list_elem_of_In; cbn; tauto.
Qed.

(** The properties [bezier] interpolates: those every point has. *)
Lemma elem_of_props (k : Key) (start : LinePointPartial)
    (points : list LinePointPartial) :
  k ∈ filter (fun p => forallb (fun s => bool_decide (p ∈ s))
                         (map keys (start :: points)) = true) (keys start)
  <-> Forall (fun pt => is_Some (get k pt)) (start :: points).
Proof.
  rewrite list_elem_of_filter, forallb_forall, Forall_forall.
  split.
  - intros [Hall _] pt Hpt. apply elem_of_keys.
    specialize (Hall (keys pt)).
    rewrite bool_decide_eq_true in Hall. apply Hall.
    apply in_map. apply list_elem_of_In. exact Hpt.
  - intros Hall. split.
    + intros s Hs. apply in_map_iff in Hs as (pt & <- & Hpt).
      rewrite bool_decide_eq_true. apply elem_of_keys, Hall.
      apply list_elem_of_In. exact Hpt.
    + apply elem_of_keys, Hall. left.
Qed.

(** The record built by the loop over the properties. *)
Lemma get_foldl_set (f : Key -> option R) (props : list Key)
    (init : LinePointPartial) (k : Key) :
  get k (foldl (fun result prop => set prop (f prop) result) init props) =
  if decide (k ∈ props) then f k else get k init.
Proof.
  revert init. induction props as [|prop props IH]; intros init.
  - cbn. destruct (decide (k ∈ [])) as [H|_]; [|reflexivity].
    apply not_elem_of_nil in H. contradiction.
  - cbn [foldl]. rewrite IH.
    destruct (decide (k ∈ props)) as [Hin|Hnin].
    + destruct (decide (k ∈ prop :: props)) as [_|Hn]; [reflexivity|].
      exfalso. apply Hn. right. exact Hin.
    + rewrite get_set.
      destruct (decide (k = prop)) as [->|Hne].
      * destruct (decide (prop ∈ prop :: props)) as [_|Hn]; [reflexivity|].
        exfalso. apply Hn. left.
      * destruct (decide (k ∈ prop :: props)) as [Hin|_]; [|reflexivity].
        apply elem_of_cons in Hin as [?|?]; contradiction.
Qed.



(** ** The angle correction of [ellipse] *)

Lemma js_rem_1 (a : R) : js_rem a 1 = a - IZR (Ztrunc a).
Proof. unfold js_rem. rewrite Rdiv_1_r. ring. Qed.

Lemma js_rem_1_range (a : R) :
  -1 < js_rem a 1 < 1 /\ exists k : Z, a = js_rem a 1 + IZR k.
Proof.
  rewrite js_rem_1. split; [|exists (Ztrunc a); ring].
  unfold Ztrunc. destruct (Rle_dec 0 a).
  - pose proof (Zfloor_bound a). lra.
  - pose proof (Zceil_bound a). lra.
Qed.

Lemma js_rem_1_nonneg (a : R) :
  0 <= a -> js_rem a 1 = a - IZR (Zfloor a) /\ 0 <= js_rem a 1 < 1.
Proof.
  intros Ha. rewrite js_rem_1. unfold Ztrunc.
  destruct (Rle_dec 0 a); [|contradiction].
  pose proof (Zfloor_bound a). split; [reflexivity | lra].
Qed.

(** The normalized parameter is [t] up to a whole number of turns, and lies
    in [-0.5, 0.5). *)
Lemma wrapTurn_range (t : R) :
  -(1 / 2) <= wrapTurn t < 1 / 2 /\ exists k : Z, t = wrapTurn t + IZR k.
Proof.
  unfold wrapTurn.
  destruct (js_rem_1_range t) as [Hu [k Hk]].
  destruct (js_rem_1_nonneg (js_rem t 1 + 15 / 10)) as [He Hr]; [lra|].
  split; [lra|].
  exists (k - 1 + Zfloor (js_rem t 1 + 15 / 10))%Z.
  rewrite He, plus_IZR, minus_IZR. lra.
Qed.

Lemma wrapTurn_id (t : R) : -(1 / 2) <= t < 1 / 2 -> wrapTurn t = t.
Proof.
  intros Ht. unfold wrapTurn.
  assert (Hu : js_rem t 1 = t).
  { rewrite js_rem_1. unfold Ztrunc. destruct (Rle_dec 0 t).
    - rewrite (Zfloor_eq 0); lra.
    - unfold Zceil. rewrite (Zfloor_eq 0) by lra.
      change (- 0)%Z with 0%Z. lra. }
  rewrite Hu. destruct (js_rem_1_nonneg (t + 15 / 10)) as [-> _]; [lra|].
  rewrite (Zfloor_eq 1); lra.
Qed.

Lemma quadrantOffset_cases (n : R) :
  (1 / 4 < n -> quadrantOffset n = 1 / 2) /\
  (n < -(1 / 4) -> quadrantOffset n = -(1 / 2)) /\
  (-(1 / 4) <= n <= 1 / 4 -> quadrantOffset n = 0).
Proof.
  unfold quadrantOffset, Math_sign, Rabs.
  repeat split; intros H;
    destruct (Rcase_abs n); repeat destruct (Rlt_dec _ _); lra.
Qed.

Lemma slideEllipse_unfold (ratio t : R) :
  slideEllipse ratio t =
  atan (tan (2 * PI * wrapTurn t) * ratio) / (2 * PI) +
  quadrantOffset (wrapTurn t).
Proof.
  unfold slideEllipse, quadrantOffset.
  replace (wrapTurn t * 2 * PI) with (2 * PI * wrapTurn t) by ring.
  reflexivity.
Qed.

Lemma tan_shift (x : R) : tan (x + PI) = tan x.
Proof.
  unfold tan. rewrite neg_sin, neg_cos. unfold Rdiv.
  rewrite Rinv_opp. ring.
Qed.








(** With a ratio of zero the corrected angle jumps at the quadrant boundary:
    the limit above needs a positive ratio. *)
Lemma slideEllipse_zero_ratio :
  (forall t, 0 <= t <= 1 / 4 -> slideEllipse 0 t = 0) /\
  (forall t, 1 / 4 < t < 1 / 2 -> slideEllipse 0 t = 1 / 2).
Proof.
  split; intros t Ht; rewrite slideEllipse_unfold, wrapTurn_id by lra;
    rewrite Rmult_0_r, atan_0; unfold Rdiv; rewrite Rmult_0_l, Rplus_0_l.
  - apply quadrantOffset_cases. lra.
  - apply quadrantOffset_cases. lra.
Qed.

(** With a ratio of one the correction is the identity on the normalized
    parameter, away from the poles of the tangent. *)
Lemma slideEllipse_unit_ratio (t : R) :
  wrapTurn t <> 1 / 4 -> wrapTurn t <> -(1 / 4) ->
  slideEllipse 1 t = wrapTurn t.
Proof.
  intros Hp Hm. pose proof PI_RGT_0 as Hpi.
  rewrite slideEllipse_unfold, Rmult_1_r.
  destruct (wrapTurn_range t) as [[Hlo Hhi] _].
  set (n := wrapTurn t) in *.
  destruct (Rlt_le_dec n (-(1 / 4))) as [H1|H1];
    [|destruct (Rlt_le_dec (1 / 4) n) as [H2|H2]].
  - rewrite (proj1 (proj2 (quadrantOffset_cases n))) by lra.
    rewrite <- (tan_shift (2 * PI * n)), atan_tan by nra.
    field. lra.
  - rewrite (proj1 (quadrantOffset_cases n)) by lra.
    replace (2 * PI * n) with (2 * PI * n - PI + PI) by ring.
    rewrite tan_shift, atan_tan by nra.
    field. lra.
  - rewrite (proj2 (proj2 (quadrantOffset_cases n))) by lra.
    rewrite atan_tan by nra.
    field. lra.
Qed.




(** ** The end points of a segment *)



(** ** Sample evaluations *)

Example empty_curve (t : R) : Stroke.evaluate Stroke.new t = Some emptyPoint.
Proof. reflexivity. Qed.

Example line_midpoint :
  Stroke.evaluate
    (Stroke.line Stroke.new
       (mkPartial (Some 0) (Some 0) None None None None None)
       (mkPartial (Some 10) (Some 0) None None None None None)) (1 / 2) =
  Some (mkPartial (Some 5) (Some 0) None None None None None).
Proof.
  unfold Stroke.evaluate, Stroke.line, Stroke.bezier.
  cbn [Stroke._evaluator Stroke.new].
  match goal with
  | |- context [foldl _ _ ?props] =>
      change props with [Kx; Ky]
  end.
  cbn. simp bezier. cbn. simp bezier. unfold assign, lerp. cbn.
  do 2 f_equal; f_equal; lra.
Qed.

Example circle_start :
  Stroke.evaluate (Stroke.circle Stroke.new 0 0 10 0 false) 0 =
  Some (mkPartial (Some 10) (Some 0) None None None None None).
Proof.
  unfold Stroke.evaluate, Stroke.circle, Stroke.ellipse. cbn.
  replace ((0 + 0 / (2 * PI)) * 2 * PI) with 0
    by (unfold Rdiv; ring).
  rewrite cos_0, sin_0. unfold assign. cbn. do 2 f_equal; f_equal; lra.
Qed.

Example clear_draws_nothing (this : Context.t) (fuel : nat) (w h : Z) :
  Context.draw fuel (Context.clear this) w h = Done (createImageData w h).
Proof. reflexivity. Qed.

(** * Further properties *)

(** ** [clamp] *)

(** X1: [clamp] does not depend on the order of its bounds, its result lies
    between the smaller and the larger bound, and it leaves a value it
    returned unchanged. *)
Theorem clamp_bounds_symmetric (t a b : R) :
  clamp t a b = clamp t b a /\
  Rmin a b <= clamp t a b <= Rmax a b /\
  clamp (clamp t a b) a b = clamp t a b.
Proof.
  assert (Hsym : forall u, clamp u a b = clamp u b a).
  { intros u. unfold clamp.
    destruct (Rlt_dec b a), (Rlt_dec a b); try reflexivity; try lra.
    replace b with a by lra. reflexivity. }
  assert (Hr : Rmin a b <= clamp t a b <= Rmax a b).
  { destruct (Rle_lt_dec a b) as [H|H].
    - rewrite Rmin_left, Rmax_right by lra. apply clamp_bounds. exact H.
    - rewrite Rmin_right, Rmax_left, Hsym by lra. apply clamp_bounds. lra. }
  repeat split; try apply Hr; try apply Hsym.
  destruct (Rle_lt_dec a b) as [H|H].
  - rewrite Rmin_left, Rmax_right in Hr by lra. apply clamp_inside. exact Hr.
  - rewrite (Hsym (clamp t a b)), (Hsym t).
    rewrite Rmin_right, Rmax_left, Hsym in Hr by lra.
    apply clamp_inside. exact Hr.
Qed.

(** ** [hsl] *)

Lemma chroma_bounds (s l : R) :
  0 <= chroma s l /\
  chroma s l * (5 / 10) <= clamp01 l /\
  clamp01 l + chroma s l * (5 / 10) <= 1.
Proof.
  unfold chroma.
  pose proof (clamp01_bounds s) as Hs. pose proof (clamp01_bounds l) as Hl.
  set (S := clamp01 s) in *. set (L := clamp01 l) in *.
  unfold Rabs. destruct (Rcase_abs (2 * L - 1)); repeat split; nra.
Qed.

(** The three channels [hsl] returns, by sector of the hue. *)
Lemma hsl_channels (h s l : R) (a : option R) :
  let h' := js_rem h 1 * 6 in
  let c := chroma s l in
  let white := clamp01 l - c * (5 / 10) in
  hsl h s l a =
    if Rlt_dec h' 1 then
      mkPartial None None (Some (c + white)) (Some (c * h' + white))
                (Some (0 + white)) a None
    else if Rlt_dec h' 2 then
      mkPartial None None (Some (c * (2 - h') + white)) (Some (c + white))
                (Some (0 + white)) a None
    else if Rlt_dec h' 3 then
      mkPartial None None (Some (0 + white)) (Some (c + white))
                (Some (c * (h' - 2) + white)) a None
    else if Rlt_dec h' 4 then
      mkPartial None None (Some (0 + white)) (Some (c * (4 - h') + white))
                (Some (c + white)) a None
    else if Rlt_dec h' 5 then
      mkPartial None None (Some (c * (h' - 4) + white)) (Some (0 + white))
                (Some (c + white)) a None
    else
      mkPartial None None (Some (c + white)) (Some (0 + white))
                (Some (c * (6 - h') + white)) a None.
Proof.
  intros h' c white. unfold hsl. fold h'. fold (chroma s l). fold c. fold white.
  destruct a; repeat destruct (Rlt_dec _ _); reflexivity.
Qed.

Lemma js_rem_1_hue (h : R) : 0 <= h -> 0 <= js_rem h 1 * 6 < 6.
Proof. intros Hh. destruct (js_rem_1_nonneg h Hh) as [_ Hr]. lra. Qed.

Lemma hsl_nonneg_hue (h s l : R) (a : option R) :
  0 <= h ->
  exists r g b,
    pr (hsl h s l a) = Some r /\ pg (hsl h s l a) = Some g /\
    pb (hsl h s l a) = Some b /\
    (0 <= r <= 1 /\ 0 <= g <= 1 /\ 0 <= b <= 1) /\
    max3 r g b - min3 r g b = chroma s l /\
    (max3 r g b + min3 r g b) / 2 = clamp01 l.
Proof.
  intros Hh. pose proof (js_rem_1_hue h Hh) as Hhue.
  pose proof (chroma_bounds s l) as (Hc0 & Hc1 & Hc2).
  rewrite (hsl_channels h s l a). cbv zeta.
  set (h' := js_rem h 1 * 6) in *. set (c := chroma s l) in *.
  set (L := clamp01 l) in *.
  repeat destruct (Rlt_dec _ _); cbn [pr pg pb];
    (eexists _, _, _; split; [reflexivity|]; split; [reflexivity|];
     split; [reflexivity|]);
    match goal with
    | |- context [c * ?f + _] =>
        assert (Hx : 0 <= c * f <= c) by nra; set (X := c * f) in *
    end;
    unfold max3, min3, Rmax, Rmin;
    repeat destruct (Rle_dec _ _); repeat split; lra.
Qed.

(** X2: for a hue that is not negative, [hsl] returns red, green and blue
    within [0, 1]; the largest exceeds the smallest by the chroma, and their
    mean is the clamped lightness. *)
Theorem hsl_lightness (h s l : R) (a : option R) :
  0 <= h ->
  exists r g b,
    pr (hsl h s l a) = Some r /\ pg (hsl h s l a) = Some g /\
    pb (hsl h s l a) = Some b /\
    (0 <= r <= 1 /\ 0 <= g <= 1 /\ 0 <= b <= 1) /\
    max3 r g b - min3 r g b = chroma s l /\
    (max3 r g b + min3 r g b) / 2 = clamp01 l.
Proof. apply hsl_nonneg_hue. Qed.

Lemma hsl_lightness_witness :
  exists r g b,
    pr (hsl (1 / 3) 1 (1 / 2) None) = Some r /\
    pg (hsl (1 / 3) 1 (1 / 2) None) = Some g /\
    pb (hsl (1 / 3) 1 (1 / 2) None) = Some b /\
    (0 <= r <= 1 /\ 0 <= g <= 1 /\ 0 <= b <= 1) /\
    max3 r g b - min3 r g b = chroma 1 (1 / 2) /\
    (max3 r g b + min3 r g b) / 2 = clamp01 (1 / 2).
Proof. apply (hsl_lightness (1 / 3) 1 (1 / 2) None). lra. Defined.

(** X3: when the chroma is zero (no saturation, or a lightness of 0 or 1 and
    beyond) [hsl] returns the gray of the clamped lightness for every hue,
    negative hues included; the alpha is the one given. *)
Theorem hsl_gray (h s l : R) (a : option R) :
  s <= 0 \/ l <= 0 \/ 1 <= l ->
  hsl h s l a =
    mkPartial None None (Some (clamp01 l)) (Some (clamp01 l))
              (Some (clamp01 l)) a None.
Proof.
  intros H. assert (Hc : chroma s l = 0).
  { unfold chroma. destruct H as [H|[H|H]].
    - rewrite (clamp01_zero s H). ring.
    - rewrite (clamp01_zero l H).
      replace (2 * 0 - 1) with (- (1)) by ring.
      rewrite Rabs_Ropp, Rabs_R1. ring.
    - unfold clamp01 at 1. rewrite (clamp_above l 0 1) by lra.
      replace (2 * 1 - 1) with 1 by ring. rewrite Rabs_R1. ring. }
  rewrite (hsl_channels h s l a). cbv zeta. rewrite Hc.
  repeat destruct (Rlt_dec _ _); do 3 f_equal; f_equal; ring.
Qed.

Lemma hsl_gray_witness :
  hsl (- (7 / 3)) 0 (1 / 2) (Some 1) =
    mkPartial None None (Some (clamp01 (1 / 2))) (Some (clamp01 (1 / 2)))
              (Some (clamp01 (1 / 2))) (Some 1) None.
Proof. apply (hsl_gray (- (7 / 3)) 0 (1 / 2) (Some 1)). left. lra. Defined.

Lemma js_rem_1_shift (h : R) (k : Z) :
  0 <= h -> 0 <= h + IZR k -> js_rem (h + IZR k) 1 = js_rem h 1.
Proof.
  intros Hh Hk.
  destruct (js_rem_1_nonneg h Hh) as [-> _].
  destruct (js_rem_1_nonneg (h + IZR k) Hk) as [-> _].
  rewrite Zfloor_addz, plus_IZR. ring.
Qed.

(** X4: on hues that are not negative [hsl] has period 1. *)
Theorem hsl_hue_period (h s l : R) (a : option R) (k : Z) :
  0 <= h -> 0 <= h + IZR k ->
  hsl (h + IZR k) s l a = hsl h s l a.
Proof.
  intros Hh Hk. unfold hsl. rewrite (js_rem_1_shift h k Hh Hk). reflexivity.
Qed.

Lemma hsl_hue_period_witness :
  hsl (1 / 4 + IZR 2) 1 (1 / 2) None = hsl (1 / 4) 1 (1 / 2) None.
Proof. apply (hsl_hue_period (1 / 4) 1 (1 / 2) None 2); lra. Defined.

(** X5: a negative hue is not wrapped into [0, 1): between -1 and 0, with a
    positive chroma, the green channel falls below [l - c / 2], the smallest
    channel of every hue that is not negative, so that [hsl h] differs from
    [hsl (h + 1)]. *)
Theorem hsl_negative_hue (h s l : R) (a : option R) :
  -1 < h < 0 -> 0 < chroma s l ->
  (exists g, pg (hsl h s l a) = Some g /\
             g < clamp01 l - chroma s l * (5 / 10)) /\
  hsl h s l a <> hsl (h + 1) s l a.
Proof.
  intros Hh Hc.
  assert (Hr : js_rem h 1 = h).
  { rewrite js_rem_1. unfold Ztrunc. destruct (Rle_dec 0 h); [lra|].
    unfold Zceil. rewrite (Zfloor_eq 0) by lra.
    change (- 0)%Z with 0%Z. lra. }
  assert (Hg : pg (hsl h s l a) =
               Some (chroma s l * (h * 6) +
                     (clamp01 l - chroma s l * (5 / 10)))).
  { rewrite (hsl_channels h s l a). cbv zeta. rewrite Hr.
    destruct (Rlt_dec (h * 6) 1); [reflexivity | lra]. }
  split.
  - eexists. split; [exact Hg|]. nra.
  - intros Heq. rewrite Heq in Hg.
    destruct (hsl_nonneg_hue (h + 1) s l a ltac:(lra))
      as (r & g & b & _ & Hg' & _ & _ & Hd & Hm).
    rewrite Hg in Hg'. inversion Hg' as [Hgv]. clear Hg'.
    assert (Hmin : clamp01 l - chroma s l * (5 / 10) <= g).
    { assert (Hle : min3 r g b <= g).
      { unfold min3, Rmin. repeat destruct (Rle_dec _ _); lra. }
      lra. }
    nra.
Qed.

Lemma hsl_negative_hue_witness :
  (exists g, pg (hsl (- (1 / 2)) 1 (1 / 2) None) = Some g /\
             g < clamp01 (1 / 2) - chroma 1 (1 / 2) * (5 / 10)) /\
  hsl (- (1 / 2)) 1 (1 / 2) None <> hsl (- (1 / 2) + 1) 1 (1 / 2) None.
Proof.
  apply (hsl_negative_hue (- (1 / 2)) 1 (1 / 2) None); [lra|].
  unfold chroma. rewrite !clamp01_inside by lra.
  replace (2 * (1 / 2) - 1) with 0 by lra. rewrite Rabs_R0. lra.
Defined.

(** ** [bezier] *)

Lemma bezier_step (t : R) (values : list R) :
  (2 <= length values)%nat ->
  bezier t values =
    match bezier t (removelast values), bezier t (tail values) with
    | Some p, Some q => Some (lerp t p q)
    | _, _ => None
    end.
Proof.
  destruct values as [|v [|w vs]]; cbn [length]; try lia.
  intros _. rewrite bezier_equation_3. reflexivity.
Qed.

Lemma bezier_ends (values : list R) :
  bezier 0 values = head values /\ bezier 1 values = last values.
Proof.
  assert (H : forall t values,
             (t = 0 -> bezier t values = head values) /\
             (t = 1 -> bezier t values = last values)).
  { apply (bezier_elim (fun t values r =>
             (t = 0 -> r = head values) /\ (t = 1 -> r = last values))).
    - intros t. split; reflexivity.
    - intros t v. split; reflexivity.
    - intros t v w vs [IH0 IH1] IH2. destruct (IH2 t) as [IH0' IH1'].
      split; intros ->.
      + rewrite IH0, IH0' by reflexivity. cbn. f_equal. unfold lerp. ring.
      + rewrite IH1, IH1' by reflexivity. rewrite last_cons_cons.
        change (removelast (v :: w :: vs)) with (v :: removelast (w :: vs)).
        destruct (last (v :: removelast (w :: vs))) as [p|] eqn:Ep.
        * destruct (last (w :: vs)) as [q|] eqn:Eq; [|reflexivity].
          f_equal. unfold lerp. ring.
        * apply last_None in Ep. discriminate. }
  split; apply H; reflexivity.
Qed.

(** X6: at 0 [bezier] returns the first value and at 1 the last one. *)
Theorem bezier_endpoints (values : list R) :
  bezier 0 values = head values /\ bezier 1 values = last values.
Proof. apply bezier_ends. Qed.

Lemma Forall_removelast {A} (P : A -> Prop) (l : list A) :
  Forall P l -> Forall P (removelast l).
Proof.
  induction 1 as [|x l Hx Hl IH]; [constructor|].
  destruct l; [constructor|]. cbn. constructor; assumption.
Qed.

(** X7: for [t] in [0, 1] the interpolation of a non-empty array stays
    within any interval that holds its values. *)
Theorem bezier_within (t lo hi : R) (values : list R) :
  0 <= t <= 1 -> values <> [] ->
  Forall (fun v => lo <= v <= hi) values ->
  exists r, bezier t values = Some r /\ lo <= r <= hi.
Proof.
  intros Ht. revert t values Ht.
  assert (H : forall t values,
             0 <= t <= 1 -> values <> [] ->
             Forall (fun v => lo <= v <= hi) values ->
             exists r, bezier t values = Some r /\ lo <= r <= hi);
    [|exact H].
  apply (bezier_elim (fun t values res =>
           0 <= t <= 1 -> values <> [] ->
           Forall (fun v => lo <= v <= hi) values ->
           exists r, res = Some r /\ lo <= r <= hi)).
  - intros t _ H _. congruence.
  - intros t v _ _ Hall. exists v. split; [reflexivity|].
    inversion Hall; assumption.
  - intros t v w vs IH1 IH2 Ht _ Hall.
    destruct (IH1 Ht (removelast_nonempty v w vs) (Forall_removelast _ _ Hall))
      as (p & -> & Hp).
    destruct (IH2 t Ht ltac:(discriminate) ltac:(inversion Hall; assumption))
      as (q & -> & Hq).
    exists (lerp t p q). split; [reflexivity|]. unfold lerp. nra.
Qed.

Lemma bezier_within_witness :
  exists r, bezier (1 / 3) [0; 10; 4] = Some r /\ 0 <= r <= 10.
Proof.
  apply (bezier_within (1 / 3) 0 10 [0; 10; 4]); [lra | discriminate |].
  repeat constructor; lra.
Defined.

Lemma map_removelast {A B} (f : A -> B) (l : list A) :
  map f (removelast l) = removelast (map f l).
Proof.
  induction l as [|x l IH]; [reflexivity|].
  destruct l; [reflexivity|]. cbn in *. f_equal. exact IH.
Qed.

(** X8: [bezier] commutes with an affine map of the values: interpolating
    [k * v + c] gives [k * r + c]. *)
Theorem bezier_affine (k c t : R) (values : list R) :
  bezier t (map (fun v => k * v + c) values) =
  (fun r => k * r + c) <$> bezier t values.
Proof.
  revert t values.
  apply (bezier_elim (fun t values res =>
           bezier t (map (fun v => k * v + c) values) =
           (fun r => k * r + c) <$> res)).
  - intros t. reflexivity.
  - intros t v. cbn. simp bezier. reflexivity.
  - intros t v w vs IH1 IH2.
    rewrite bezier_step by (cbn; lia).
    rewrite <- map_removelast, IH1.
    change (tail (map (fun v0 => k * v0 + c) (v :: w :: vs)))
      with (map (fun v0 => k * v0 + c) (w :: vs)).
    rewrite (IH2 t).
    destruct (bezier t (removelast (v :: w :: vs))) as [p|]; [|reflexivity].
    destruct (bezier t (w :: vs)) as [q|]; [|reflexivity].
    cbn. f_equal. unfold lerp. ring.
Qed.

Lemma length_removelast_cons {A} (x : A) (l : list A) :
  length (removelast (x :: l)) = length l.
Proof.
  revert x. induction l as [|y l IH]; intros x; [reflexivity|].
  change (removelast (x :: y :: l)) with (x :: removelast (y :: l)).
  cbn [length]. rewrite IH. reflexivity.
Qed.

Lemma removelast_rev {A} (l : list A) : removelast (rev l) = rev (tail l).
Proof.
  destruct l as [|x l]; [reflexivity|]. cbn. apply removelast_last.
Qed.

Lemma tail_rev {A} (l : list A) : tail (rev l) = rev (removelast l).
Proof.
  induction l as [|x l IH]; [reflexivity|].
  destruct l as [|y l]; [reflexivity|].
  change (removelast (x :: y :: l)) with (x :: removelast (y :: l)).
  cbn [rev] in *. rewrite <- IH.
  destruct (rev l ++ [y]) eqn:E; [|reflexivity].
  apply app_eq_nil in E as [_ E]. discriminate.
Qed.

(** X9: reading the control values backwards mirrors the parameter:
    [bezier (1 - t)] of an array is [bezier t] of the reversed array. *)
Theorem bezier_reverse (t : R) (values : list R) :
  bezier (1 - t) values = bezier t (rev values).
Proof.
  remember (length values) as n eqn:Hn. revert values Hn.
  induction n as [n IH] using lt_wf_ind. intros values Hn.
  destruct values as [|v [|w vs]]; [reflexivity | reflexivity |].
  rewrite (bezier_step (1 - t)) by (cbn; lia).
  rewrite (bezier_step t (rev (v :: w :: vs)))
    by (rewrite length_rev; cbn; lia).
  rewrite removelast_rev, tail_rev.
  rewrite <- (IH (length (tail (v :: w :: vs)))) by (subst n; cbn; lia || reflexivity).
  rewrite <- (IH (length (removelast (v :: w :: vs))));
    [| subst n; change (removelast (v :: w :: vs)) with (v :: removelast (w :: vs));
       cbn [length]; pose proof (length_removelast_cons w vs); lia
     | reflexivity].
  destruct (bezier (1 - t) (removelast (v :: w :: vs))) as [p|],
           (bezier (1 - t) (tail (v :: w :: vs))) as [q|]; try reflexivity.
  f_equal. unfold lerp. ring.
Qed.

(** ** The angle correction *)

Lemma wrapTurn_shift (t : R) (k : Z) : wrapTurn (t + IZR k) = wrapTurn t.
Proof.
  destruct (wrapTurn_range t) as [Ha [i Hi]].
  destruct (wrapTurn_range (t + IZR k)) as [Hb [j Hj]].
  assert (Hd : wrapTurn (t + IZR k) - wrapTurn t = IZR (i + k - j)).
  { rewrite minus_IZR, plus_IZR. lra. }
  assert (Hz : (i + k - j = 0)%Z).
  { assert (-1 < i + k - j < 1)%Z; [|lia].
    split; apply lt_IZR; rewrite <- Hd; cbn; lra. }
  rewrite Hz in Hd. cbn in Hd. lra.
Qed.

(** X10: [slideEllipse] has period 1 in the parameter. *)
Theorem slideEllipse_period (ratio t : R) (k : Z) :
  slideEllipse ratio (t + IZR k) = slideEllipse ratio t.
Proof. rewrite !slideEllipse_unfold, wrapTurn_shift. reflexivity. Qed.

Lemma tan_shift_nat (x : R) (n : nat) : tan (x + INR n * PI) = tan x.
Proof.
  induction n as [|n IH].
  - cbn. f_equal. ring.
  - rewrite S_INR.
    replace (x + (INR n + 1) * PI) with (x + INR n * PI + PI) by ring.
    rewrite tan_shift. exact IH.
Qed.

Lemma tan_shift_Z (x : R) (k : Z) : tan (x + IZR k * PI) = tan x.
Proof.
  destruct (Z_le_gt_dec 0 k) as [Hk|Hk].
  - rewrite <- (Z2Nat.id k) by exact Hk. rewrite <- INR_IZR_INZ.
    apply tan_shift_nat.
  - rewrite <- (tan_shift_nat (x + IZR k * PI) (Z.to_nat (- k))).
    f_equal. rewrite INR_IZR_INZ, Z2Nat.id, opp_IZR by lia. ring.
Qed.

Lemma quadrantOffset_half_turns (n : R) :
  exists m : Z, 2 * PI * quadrantOffset n = IZR m * PI.
Proof.
  unfold quadrantOffset, Math_sign.
  destruct (Rlt_dec _ _); [destruct (Rlt_dec 0 n); [|destruct (Rlt_dec n 0)]|].
  - exists 1%Z. lra.
  - exists (-1)%Z. lra.
  - exists 0%Z. lra.
  - exists 0%Z. lra.
Qed.

Lemma slideEllipse_tan (ratio t : R) :
  tan (2 * PI * slideEllipse ratio t) = tan (2 * PI * t) * ratio.
Proof.
  pose proof PI_RGT_0 as Hpi.
  rewrite slideEllipse_unfold.
  destruct (wrapTurn_range t) as [_ [k Hk]].
  destruct (quadrantOffset_half_turns (wrapTurn t)) as [m Hm].
  set (n := wrapTurn t) in *.
  replace (2 * PI * (atan (tan (2 * PI * n) * ratio) / (2 * PI) + quadrantOffset n))
    with (atan (tan (2 * PI * n) * ratio) + IZR m * PI)
    by (rewrite <- Hm; field; lra).
  rewrite tan_shift_Z, tan_atan. f_equal.
  clearbody n. rewrite Hk.
  replace (2 * PI * (n + IZR k)) with (2 * PI * n + IZR (2 * k) * PI)
    by (rewrite mult_IZR; ring).
  rewrite tan_shift_Z. reflexivity.
Qed.

(** ** [ellipse] and [circle] *)

Lemma ellipse_eval (c : Stroke.t) (x y rx ry start : R) (ccw : bool)
    (form : Form) (t : R) :
  let u := ellipseParam rx ry start form t in
  let angle := (if ccw then - u else u) * 2 * PI in
  Stroke.evaluate (Stroke.ellipse c x y rx ry start ccw form) t =
  (fun p => assign p (mkPartial (Some (x + rx * cos angle))
                                (Some (y + ry * sin angle))
                                None None None None None))
    <$> Stroke.evaluate c u.
Proof.
  intros u angle. subst angle u. unfold Stroke.evaluate, ellipseParam.
  destruct form; cbn;
    match goal with
    | |- context [Stroke._evaluator c ?v] => destruct (Stroke._evaluator c v)
    end; reflexivity.
Qed.

Lemma ellipse_position (c : Stroke.t) (x y rx ry start : R) (ccw : bool)
    (form : Form) (t : R) (q : LinePointPartial) :
  Stroke.evaluate (Stroke.ellipse c x y rx ry start ccw form) t = Some q ->
  let u := ellipseParam rx ry start form t in
  let angle := (if ccw then - u else u) * 2 * PI in
  px q = Some (x + rx * cos angle) /\ py q = Some (y + ry * sin angle).
Proof.
  intros Hq u angle. rewrite ellipse_eval in Hq. fold u angle in Hq.
  destruct (Stroke.evaluate c u) as [p|]; [|discriminate].
  cbn in Hq. inversion Hq. split; reflexivity.
Qed.

(** X11: every sample of [ellipse], in each of the three forms and for
    either direction, lies on the ellipse of centre [(x, y)] and radii [rx]
    and [ry], provided the radius that divides in the ratio of the form is
    not 0 ([ry] in the polar form, [rx] in the tangent form); every sample of
    [circle] is at distance [r] from the centre. *)
Theorem ellipse_on_curve (c : Stroke.t) (x y rx ry start : R) (ccw : bool)
    (t : R) :
  (forall form q,
      (form = polar_form -> ry <> 0) ->
      (form = tangent_form -> rx <> 0) ->
      Stroke.evaluate (Stroke.ellipse c x y rx ry start ccw form) t = Some q ->
      exists X Y, px q = Some X /\ py q = Some Y /\
        ((X - x) * ry) ^ 2 + ((Y - y) * rx) ^ 2 = (rx * ry) ^ 2) /\
  (forall r q,
      Stroke.evaluate (Stroke.circle c x y r start ccw) t = Some q ->
      exists X Y, px q = Some X /\ py q = Some Y /\
        (X - x) ^ 2 + (Y - y) ^ 2 = r ^ 2).
Proof.
  split.
  - intros form q _ _ Hq.
    destruct (ellipse_position _ _ _ _ _ _ _ _ _ _ Hq) as [HX HY].
    eexists _, _. split; [exact HX|]. split; [exact HY|].
    match goal with |- context [cos ?a] => pose proof (sin2_cos2 a) as Hsc end.
    unfold Rsqr in Hsc. nra.
  - intros r q Hq. unfold Stroke.circle in Hq.
    destruct (ellipse_position _ _ _ _ _ _ _ _ _ _ Hq) as [HX HY].
    eexists _, _. split; [exact HX|]. split; [exact HY|].
    match goal with |- context [cos ?a] => pose proof (sin2_cos2 a) as Hsc end.
    unfold Rsqr in Hsc. nra.
Qed.

Lemma ellipse_on_curve_witness :
  exists q,
    Stroke.evaluate
      (Stroke.ellipse Stroke.new 1 2 3 (-4) 0 true polar_form) (1 / 3) = Some q /\
    exists X Y, px q = Some X /\ py q = Some Y /\
      ((X - 1) * (-4)) ^ 2 + ((Y - 2) * 3) ^ 2 = (3 * (-4)) ^ 2.
Proof.
  eexists. split; [reflexivity|].
  destruct (ellipse_on_curve Stroke.new 1 2 3 (-4) 0 true (1 / 3)) as [H _].
  apply (H polar_form); [intros _; lra | discriminate | reflexivity].
Defined.

Lemma cos_shift_Z (x : R) (k : Z) :
  cos (x + IZR k * PI) = cos x \/ cos (x + IZR k * PI) = - cos x.
Proof.
  assert (Hn : forall n : nat,
             cos (x + INR n * PI) = cos x \/ cos (x + INR n * PI) = - cos x).
  { induction n as [|n IH].
    - left. cbn. f_equal. ring.
    - rewrite S_INR.
      replace (x + (INR n + 1) * PI) with (x + INR n * PI + PI) by ring.
      rewrite neg_cos. destruct IH as [-> | ->]; [right | left]; ring. }
  destruct (Z_le_gt_dec 0 k) as [Hk|Hk].
  - rewrite <- (Z2Nat.id k) by exact Hk. rewrite <- INR_IZR_INZ. apply Hn.
  - assert (Hx : cos x = cos (x + IZR k * PI + INR (Z.to_nat (- k)) * PI)).
    { f_equal. rewrite INR_IZR_INZ, Z2Nat.id, opp_IZR by lia. ring. }
    assert (Hm : forall n : nat,
               cos (x + IZR k * PI + INR n * PI) = cos (x + IZR k * PI) \/
               cos (x + IZR k * PI + INR n * PI) = - cos (x + IZR k * PI)).
    { induction n as [|n IH].
      - left. cbn. f_equal. ring.
      - rewrite S_INR.
        replace (x + IZR k * PI + (INR n + 1) * PI)
          with (x + IZR k * PI + INR n * PI + PI) by ring.
        rewrite neg_cos. destruct IH as [-> | ->]; [right | left]; ring. }
    destruct (Hm (Z.to_nat (- k))) as [H|H]; rewrite <- Hx in H; [left | right]; lra.
Qed.

Lemma cos_even_turns (x : R) (k : Z) : cos (x + IZR (2 * k) * PI) = cos x.
Proof.
  assert (Hn : forall n : nat, cos (x + 2 * INR n * PI) = cos x)
    by (intros n; apply cos_period).
  destruct (Z_le_gt_dec 0 k) as [Hk|Hk].
  - rewrite mult_IZR, <- (Z2Nat.id k), <- INR_IZR_INZ by exact Hk. apply Hn.
  - rewrite <- (cos_period (x + IZR (2 * k) * PI) (Z.to_nat (- k))).
    f_equal. rewrite mult_IZR, INR_IZR_INZ, Z2Nat.id, opp_IZR by lia. ring.
Qed.

(** The cosine of the corrected angle has the sign of the cosine of the
    given angle. *)
Lemma slideEllipse_cos_sign (ratio t : R) :
  cos (2 * PI * t) <> 0 ->
  0 < cos (2 * PI * slideEllipse ratio t) * cos (2 * PI * t).
Proof.
  intros Hne. pose proof PI_RGT_0 as Hpi.
  destruct (wrapTurn_range t) as [[Hlo Hhi] [k Hk]].
  assert (Hct : cos (2 * PI * t) = cos (2 * PI * wrapTurn t)).
  { rewrite Hk at 1.
    replace (2 * PI * (wrapTurn t + IZR k))
      with (2 * PI * wrapTurn t + IZR (2 * k) * PI)
      by (rewrite mult_IZR; ring).
    apply cos_even_turns. }
  rewrite Hct in *. rewrite slideEllipse_unfold.
  set (n := wrapTurn t) in *. clearbody n.
  set (A := atan (tan (2 * PI * n) * ratio)).
  pose proof (atan_bound (tan (2 * PI * n) * ratio)) as HA. fold A in HA.
  assert (HcA : 0 < cos A) by (apply cos_gt_0; lra).
  destruct (Rlt_le_dec n (-(1 / 4))) as [H1|H1];
    [|destruct (Rlt_le_dec (1 / 4) n) as [H2|H2]].
  - rewrite (proj1 (proj2 (quadrantOffset_cases n))) by lra.
    replace (2 * PI * (A / (2 * PI) + - (1 / 2))) with (A - PI)
      by (field; lra).
    assert (Hc : cos (A - PI) = - cos A).
    { rewrite <- (Ropp_involutive (cos (A - PI))), <- neg_cos.
      do 2 f_equal. ring. }
    rewrite Hc.
    assert (cos (2 * PI * n) < 0).
    { rewrite <- cos_neg. destruct (Req_dec n (-(1 / 2))) as [->|Hn].
      - replace (- (2 * PI * - (1 / 2))) with PI by field.
        rewrite cos_PI. lra.
      - apply cos_lt_0; nra. }
    nra.
  - rewrite (proj1 (quadrantOffset_cases n)) by lra.
    replace (2 * PI * (A / (2 * PI) + 1 / 2)) with (A + PI) by (field; lra).
    rewrite neg_cos.
    assert (cos (2 * PI * n) < 0) by (apply cos_lt_0; nra).
    nra.
  - rewrite (proj2 (proj2 (quadrantOffset_cases n))) by lra.
    replace (2 * PI * (A / (2 * PI) + 0)) with A by (field; lra).
    assert (0 <= cos (2 * PI * n)) by (apply cos_ge_0; nra).
    assert (0 < cos (2 * PI * n)) by lra.
    nra.
Qed.

(** X12: in the polar form, with positive radii, the sample at [t] lies on
    the ray from the centre at the angle [2 pi t + start] (away from the
    vertical directions, where the tangent has its poles): it is on the line
    of that direction, on the side of the ray. *)
Theorem ellipse_polar_ray (c : Stroke.t) (x y rx ry start t : R)
    (q : LinePointPartial) :
  0 < rx -> 0 < ry ->
  let theta := 2 * PI * (t + start / (2 * PI)) in
  cos theta <> 0 ->
  Stroke.evaluate (Stroke.ellipse c x y rx ry start false polar_form) t = Some q ->
  exists X Y, px q = Some X /\ py q = Some Y /\
    (Y - y) * cos theta = (X - x) * sin theta /\
    0 < (X - x) * cos theta.
Proof.
  intros Hrx Hry theta Hcos Hq.
  destruct (ellipse_position _ _ _ _ _ _ _ _ _ _ Hq) as [HX HY].
  cbn [ellipseParam] in HX, HY.
  eexists _, _. split; [exact HX|]. split; [exact HY|].
  set (t' := t + start / (2 * PI)) in *.
  pose proof (slideEllipse_tan (rx / ry) t') as Htan.
  pose proof (slideEllipse_cos_sign (rx / ry) t' Hcos) as Hsign.
  replace (slideEllipse (rx / ry) t' * 2 * PI)
    with (2 * PI * slideEllipse (rx / ry) t') by ring.
  set (phi := 2 * PI * slideEllipse (rx / ry) t') in *.
  fold theta in Htan, Hsign.
  assert (Hcphi : cos phi <> 0) by (intros H0; rewrite H0 in Hsign; lra).
  unfold tan in Htan.
  assert (Hs : sin phi * cos theta * ry = sin theta * cos phi * rx).
  { apply (f_equal (fun v => v * (cos phi * cos theta * ry))) in Htan.
    field_simplify in Htan; lra. }
  split; nra.
Qed.

Lemma ellipse_polar_ray_witness :
  exists q,
    Stroke.evaluate (Stroke.ellipse Stroke.new 0 0 2 1 0 false polar_form) 0 =
      Some q /\
    exists X Y, px q = Some X /\ py q = Some Y /\
      (Y - 0) * cos (2 * PI * (0 + 0 / (2 * PI))) =
        (X - 0) * sin (2 * PI * (0 + 0 / (2 * PI))) /\
      0 < (X - 0) * cos (2 * PI * (0 + 0 / (2 * PI))).
Proof.
  eexists. split; [reflexivity|].
  apply (ellipse_polar_ray Stroke.new 0 0 2 1 0 0); try lra; [|reflexivity].
  replace (2 * PI * (0 + 0 / (2 * PI))) with 0 by (unfold Rdiv; ring).
  rewrite cos_0. lra.
Defined.

(** ** Composition of the combinators *)

(** X13: two cuts compose into one cut, whose bounds are the bounds of the
    second interpolated between those of the first; [cut(0, 1)] is the
    curve itself. *)
Theorem cut_compose (c : Stroke.t) (t0 t1 u0 u1 t : R) :
  Stroke.evaluate (Stroke.cut (Stroke.cut c t0 t1) u0 u1) t =
    Stroke.evaluate (Stroke.cut c (lerp u0 t0 t1) (lerp u1 t0 t1)) t /\
  Stroke.evaluate (Stroke.cut c 0 1) t = Stroke.evaluate c t.
Proof.
  unfold Stroke.evaluate, Stroke.cut, Stroke.slide, lerp. cbn.
  split; f_equal; ring.
Qed.

Lemma matrix_eval (c : Stroke.t) (a b c' d e f t : R) :
  Stroke.evaluate (Stroke.matrix c a b c' d e f) t =
  match Stroke.evaluate c t with
  | None => None
  | Some p =>
      match px p, py p with
      | Some x, Some y =>
          Some (moved p (a * x + c' * y + e) (b * x + d * y + f))
      | _, _ => Some p
      end
  end.
Proof.
  unfold Stroke.evaluate. cbn. destruct (Stroke._evaluator c t) as [p|];
    [|reflexivity].
  destruct p as [[x|] [y|] ? ? ? ? ?]; reflexivity.
Qed.

Lemma moved_eq (p : LinePointPartial) (x y x' y' : R) :
  x = x' -> y = y' -> moved p x y = moved p x' y'.
Proof. intros -> ->. reflexivity. Qed.

Lemma moved_self (p : LinePointPartial) (x y : R) :
  px p = Some x -> py p = Some y -> moved p x y = p.
Proof. destruct p; cbn. intros -> ->. reflexivity. Qed.

Lemma matrix_twice (c : Stroke.t) (a b c' d e f a2 b2 c2 d2 e2 f2 t : R) :
  Stroke.evaluate
    (Stroke.matrix (Stroke.matrix c a b c' d e f) a2 b2 c2 d2 e2 f2) t =
  Stroke.evaluate
    (Stroke.matrix c (a2 * a + c2 * b) (b2 * a + d2 * b)
                     (a2 * c' + c2 * d) (b2 * c' + d2 * d)
                     (a2 * e + c2 * f + e2) (b2 * e + d2 * f + f2)) t.
Proof.
  rewrite !matrix_eval.
  destruct (Stroke.evaluate c t) as [p|]; [|reflexivity].
  destruct (px p) as [x|] eqn:Ex; [|rewrite Ex; reflexivity].
  destruct (py p) as [y|] eqn:Ey; [|rewrite Ex, Ey; reflexivity].
  cbn [moved px py]. f_equal. unfold moved. cbn. f_equal; f_equal; ring.
Qed.

(** X14: two affine transforms in a row are the transform by the product of
    their matrices, the first applied first. *)
Theorem matrix_compose (c : Stroke.t) (a b c' d e f a2 b2 c2 d2 e2 f2 t : R) :
  Stroke.evaluate
    (Stroke.matrix (Stroke.matrix c a b c' d e f) a2 b2 c2 d2 e2 f2) t =
  Stroke.evaluate
    (Stroke.matrix c (a2 * a + c2 * b) (b2 * a + d2 * b)
                     (a2 * c' + c2 * d) (b2 * c' + d2 * d)
                     (a2 * e + c2 * f + e2) (b2 * e + d2 * f + f2)) t.
Proof. apply matrix_twice. Qed.

(** X15: a rotation keeps the distance of the position to its centre, and
    the rotation by the opposite angle about the same centre undoes it. *)
Theorem rotate_isometry (c : Stroke.t) (angle cx cy t : R) :
  (forall p x y,
      Stroke.evaluate c t = Some p -> px p = Some x -> py p = Some y ->
      exists q X Y,
        Stroke.evaluate (Stroke.rotate c angle cx cy) t = Some q /\
        px q = Some X /\ py q = Some Y /\
        (X - cx) ^ 2 + (Y - cy) ^ 2 = (x - cx) ^ 2 + (y - cy) ^ 2) /\
  Stroke.evaluate (Stroke.rotate (Stroke.rotate c angle cx cy) (- angle) cx cy) t =
    Stroke.evaluate c t.
Proof.
  pose proof (sin2_cos2 angle) as Hsc. unfold Rsqr in Hsc.
  split.
  - intros p x y Hp Hx Hy. unfold Stroke.rotate. rewrite matrix_eval, Hp, Hx, Hy.
    eexists _, _, _. split; [reflexivity|]. cbn [moved px py].
    split; [reflexivity|]. split; [reflexivity|].
    set (C := cos angle) in *. set (S := sin angle) in *.
    transitivity ((S * S + C * C) * ((x - cx) ^ 2 + (y - cy) ^ 2)); [ring|].
    rewrite Hsc. ring.
  - unfold Stroke.rotate. rewrite matrix_twice, matrix_eval.
    destruct (Stroke.evaluate c t) as [p|]; [|reflexivity].
    destruct (px p) as [x|] eqn:Ex; [|reflexivity].
    destruct (py p) as [y|] eqn:Ey; [|reflexivity].
    f_equal. rewrite <- (moved_self p x y Ex Ey) at 2.
    rewrite cos_neg, sin_neg.
    set (C := cos angle) in *. set (S := sin angle) in *.
    apply moved_eq.
    + transitivity ((S * S + C * C) * (x - cx) + cx); [ring|].
      rewrite Hsc. ring.
    + transitivity ((S * S + C * C) * (y - cy) + cy); [ring|].
      rewrite Hsc. ring.
Qed.

Lemma rotate_isometry_witness :
  exists q X Y,
    Stroke.evaluate
      (Stroke.rotate
         (Stroke.fix_ Stroke.new
            (mkPartial (Some 3) (Some 4) None None None None None)) 1 1 1) 0 =
      Some q /\
    px q = Some X /\ py q = Some Y /\
    (X - 1) ^ 2 + (Y - 1) ^ 2 = (3 - 1) ^ 2 + (4 - 1) ^ 2.
Proof.
  destruct (rotate_isometry
              (Stroke.fix_ Stroke.new
                 (mkPartial (Some 3) (Some 4) None None None None None))
              1 1 1 0) as [H _].
  exact (H (mkPartial (Some 3) (Some 4) None None None None None) 3 4
           eq_refl eq_refl eq_refl).
Defined.

(** X16: a scaling about a point leaves a sample at that point where it is,
    and two scalings about the same point compose into the scaling by the
    products of their factors. *)
Theorem scale_about_centre (c : Stroke.t) (sx sy tx ty cx cy t : R) :
  (forall p, Stroke.evaluate c t = Some p ->
             px p = Some cx -> py p = Some cy ->
             Stroke.evaluate (Stroke.scale c sx sy cx cy) t = Some p) /\
  Stroke.evaluate (Stroke.scale (Stroke.scale c sx sy cx cy) tx ty cx cy) t =
    Stroke.evaluate (Stroke.scale c (sx * tx) (sy * ty) cx cy) t.
Proof.
  split.
  - intros p Hp Hx Hy. unfold Stroke.scale. rewrite matrix_eval, Hp, Hx, Hy.
    f_equal. rewrite <- (moved_self p cx cy Hx Hy) at 2.
    apply moved_eq; ring.
  - unfold Stroke.scale. rewrite matrix_twice, !matrix_eval.
    destruct (Stroke.evaluate c t) as [p|]; [|reflexivity].
    destruct (px p) as [x|]; [|reflexivity].
    destruct (py p) as [y|]; [|reflexivity].
    f_equal. apply moved_eq; ring.
Qed.

Lemma scale_about_centre_witness :
  Stroke.evaluate
    (Stroke.scale
       (Stroke.fix_ Stroke.new
          (mkPartial (Some 3) (Some 4) None None None None None)) 2 5 3 4) 0 =
  Some (mkPartial (Some 3) (Some 4) None None None None None).
Proof.
  destruct (scale_about_centre
              (Stroke.fix_ Stroke.new
                 (mkPartial (Some 3) (Some 4) None None None None None))
              2 5 1 1 3 4 0) as [H _].
  exact (H _ eq_refl eq_refl eq_refl).
Defined.

Lemma assign_assoc (p q r : LinePointPartial) :
  assign (assign p q) r = assign p (assign q r).
Proof.
  destruct p, q, r. unfold assign. cbn.
  f_equal; match goal with |- override (override _ _) ?o = _ => destruct o end;
    reflexivity.
Qed.

(** X17: fixing properties twice is fixing the merge of the two records,
    the second having priority; and fixing properties other than [x] and
    [y] commutes with an affine transform. *)
Theorem fix_compose (c : Stroke.t) (p q : LinePointPartial) (t : R) :
  Stroke.evaluate (Stroke.fix_ (Stroke.fix_ c p) q) t =
    Stroke.evaluate (Stroke.fix_ c (assign p q)) t /\
  (px q = None -> py q = None ->
   forall a b c' d e f,
     Stroke.evaluate (Stroke.fix_ (Stroke.matrix c a b c' d e f) q) t =
     Stroke.evaluate (Stroke.matrix (Stroke.fix_ c q) a b c' d e f) t).
Proof.
  split.
  - unfold Stroke.evaluate. cbn.
    destruct (Stroke._evaluator c t); [|reflexivity].
    f_equal. apply assign_assoc.
  - intros Hx Hy a b c' d e f. unfold Stroke.evaluate. cbn.
    destruct (Stroke._evaluator c t) as [s|]; [|reflexivity].
    cbn. rewrite Hx, Hy. cbn.
    destruct (px s) as [x|]; [|reflexivity].
    destruct (py s) as [y|]; [|reflexivity].
    f_equal. destruct s, q. cbn in *. subst. unfold assign. cbn.
    f_equal;
      match goal with |- override _ ?o = _ => destruct o end; reflexivity.
Qed.

Lemma fix_compose_witness :
  Stroke.evaluate
    (Stroke.fix_ (Stroke.matrix Stroke.new 1 0 0 1 5 5)
       (mkPartial None None (Some 1) None None None None)) 0 =
  Stroke.evaluate
    (Stroke.matrix
       (Stroke.fix_ Stroke.new
          (mkPartial None None (Some 1) None None None None)) 1 0 0 1 5 5) 0.
Proof.
  destruct (fix_compose Stroke.new emptyPoint
              (mkPartial None None (Some 1) None None None None) 0) as [_ H].
  exact (H eq_refl eq_refl 1 0 0 1 5 5).
Defined.

(** X18: [sequence] of one curve is that curve.  In general the joint
    [k / N] is sampled on the curve that starts there, at its parameter 0,
    and the end of the last curve is reached at 1 only. *)
Theorem sequence_joints (curves : list Stroke.t) :
  curves <> [] ->
  (forall (k : nat) c,
      curves !! k = Some c ->
      Stroke.evaluate (Stroke.sequence curves)
                      (INR k / INR (length curves)) =
        Stroke.evaluate c 0) /\
  (forall c, last curves = Some c ->
      Stroke.evaluate (Stroke.sequence curves) 1 = Stroke.evaluate c 1) /\
  (forall c t, curves = [c] ->
      Stroke.evaluate (Stroke.sequence curves) t = Stroke.evaluate c t).
Proof.
  intros Hne.
  assert (HN : (0 < length curves)%nat)
    by (destruct curves; [congruence | cbn; lia]).
  assert (HNR : 0 < INR (length curves)) by (apply lt_0_INR; exact HN).
  repeat split.
  - intros k c Hk.
    assert (Hlt : (k < length curves)%nat) by (eapply lookup_lt_Some; eauto).
    destruct (sequence_lookup curves (INR k / INR (length curves)) Hne)
      as (c' & Hc' & ->).
    assert (Hi : interval (length curves) (INR k / INR (length curves)) =
                 Z.of_nat k).
    { unfold interval.
      replace (INR (length curves) * (INR k / INR (length curves)))
        with (INR k) by (field; lra).
      rewrite INR_IZR_INZ, ZfloorZ. lia. }
    rewrite Hi in *. rewrite Nat2Z.id in Hc'.
    assert (c' = c) by congruence. subst c'. f_equal.
    rewrite <- INR_IZR_INZ. field. lra.
  - intros c Hc.
    destruct (sequence_lookup curves 1 Hne) as (c' & Hc' & ->).
    assert (Hi : interval (length curves) 1 = (Z.of_nat (length curves) - 1)%Z).
    { unfold interval. rewrite Rmult_1_r, INR_IZR_INZ, ZfloorZ. lia. }
    rewrite Hi in *. rewrite last_lookup in Hc.
    replace (Z.to_nat (Z.of_nat (length curves) - 1)) with (pred (length curves))
      in Hc' by lia.
    assert (c' = c) by congruence. subst c'. f_equal.
    rewrite minus_IZR, <- INR_IZR_INZ. ring.
  - intros c t ->.
    destruct (sequence_lookup [c] t Hne) as (c' & Hc' & ->).
    assert (Hi : interval (length [c]) t = 0%Z) by (unfold interval; cbn; lia).
    rewrite Hi in *. cbn in Hc'. inversion Hc'; subst c'. f_equal. cbn. ring.
Qed.

Lemma sequence_joints_witness :
  Stroke.evaluate
    (Stroke.sequence [Stroke.new; Stroke.fix_ Stroke.new emptyPoint])
    (INR 1 / INR 2) =
  Stroke.evaluate (Stroke.fix_ Stroke.new emptyPoint) 0.
Proof.
  destruct (sequence_joints [Stroke.new; Stroke.fix_ Stroke.new emptyPoint])
    as [H _]; [discriminate|].
  exact (H 1%nat _ eq_refl).
Defined.

(** The property [k] of the curve built by [bezier], when every control
    point has it. *)
Lemma bezier_get (parent : Stroke.t) (start : LinePointPartial)
    (rest : list LinePointPartial) (k : Key) (t : R) (p : LinePointPartial) :
  Stroke.evaluate parent t = Some p ->
  Forall (fun pt => is_Some (get k pt)) (start :: rest) ->
  exists q values,
    Stroke.evaluate (Stroke.bezier parent start rest) t = Some q /\
    mapM (get k) (start :: rest) = Some values /\
    get k q = override (get k p) (bezier t values).
Proof.
  unfold Stroke.evaluate. intros Hp Hall.
  cbn [Stroke.bezier Stroke._evaluator]. rewrite Hp.
  destruct (mapM_is_Some_2 (get k) (start :: rest) Hall) as [values Hv].
  eexists _, values. split; [reflexivity|]. split; [exact Hv|].
  rewrite get_assign, get_foldl_set.
  destruct (decide _) as [_|Hn]; [|exfalso; apply Hn, elem_of_props, Hall].
  unfold Stroke.values_of. rewrite Hv. reflexivity.
Qed.

Lemma Forall2_last {A B} (P : A -> B -> Prop) (l : list A) (k : list B) (a : A) :
  Forall2 P l k -> last l = Some a -> exists b, last k = Some b /\ P a b.
Proof.
  induction 1 as [|x y l k Hxy Hlk IH]; [discriminate|].
  destruct Hlk as [|x' y' l k Hxy' Hlk].
  - cbn. intros [= <-]. eauto.
  - rewrite !last_cons_cons. exact IH.
Qed.

(** X19: a curve built by [bezier] (and so by [line]) starts at its first
    control point and ends at its last: at 0 a property that every control
    point has takes the value of the first point, and at 1 that of the
    last. *)
Theorem bezier_curve_endpoints (parent : Stroke.t) (start final : LinePointPartial)
    (rest : list LinePointPartial) (k : Key) :
  Forall (fun pt => is_Some (get k pt)) (start :: rest) ->
  last (start :: rest) = Some final ->
  (forall p, Stroke.evaluate parent 0 = Some p ->
     exists q, Stroke.evaluate (Stroke.bezier parent start rest) 0 = Some q /\
               get k q = get k start) /\
  (forall p, Stroke.evaluate parent 1 = Some p ->
     exists q, Stroke.evaluate (Stroke.bezier parent start rest) 1 = Some q /\
               get k q = get k final).
Proof.
  intros Hall Hlast. split; intros p Hp;
    destruct (bezier_get parent start rest k _ p Hp Hall)
      as (q & values & Hq & Hv & Hk);
    exists q; (split; [exact Hq|]); rewrite Hk;
    apply mapM_Some in Hv.
  - rewrite (proj1 (bezier_ends values)).
    inversion Hv as [|? v ? vs Hs _]; subst. cbn. symmetry. exact Hs.
  - rewrite (proj2 (bezier_ends values)).
    destruct (Forall2_last _ _ _ _ Hv Hlast) as (b & -> & Hb).
    cbn. symmetry. exact Hb.
Qed.

Lemma bezier_curve_endpoints_witness :
  exists q,
    Stroke.evaluate
      (Stroke.line Stroke.new
         (mkPartial (Some 0) (Some 0) None None None None None)
         (mkPartial (Some 10) None None None None None None)) 1 = Some q /\
    get Kx q = get Kx (mkPartial (Some 10) None None None None None None).
Proof.
  destruct (bezier_curve_endpoints Stroke.new
              (mkPartial (Some 0) (Some 0) None None None None None)
              (mkPartial (Some 10) None None None None None None)
              [mkPartial (Some 10) None None None None None None] Kx)
    as [_ H].
  - repeat constructor; cbn; eauto.
  - reflexivity.
  - exact (H emptyPoint eq_refl).
Defined.

(** ** The pixel buffer *)

Lemma ToUint8Clamp_range (v : jsnum) : (0 <= ToUint8Clamp v <= 255)%Z.
Proof.
  destruct v as [v| | |]; cbn; try lia.
  destruct (Rle_dec v 0); [lia|]. destruct (Rle_dec 255 v); [lia|].
  pose proof (Zfloor_bound v) as Hf.
  assert (0 <= Zfloor v)%Z by (apply Zfloor_lub; lra).
  assert (Zfloor v < 255)%Z by (apply lt_IZR; lra).
  repeat destruct (Rlt_dec _ _); try destruct (Z.even _); lia.
Qed.

Lemma store_range (d : list Z) (i : Z) (v : jsnum) :
  Forall (fun b => 0 <= b <= 255)%Z d ->
  Forall (fun b => 0 <= b <= 255)%Z (store d i v).
Proof.
  intros Hd. unfold store. destruct (0 <=? i)%Z; [|exact Hd].
  apply Forall_insert; [exact Hd | apply ToUint8Clamp_range].
Qed.

Lemma drawPixel_dimensions (data : ImageData) (x y : Z) (r g b : jsnum)
    (a blend : R) :
  width (drawPixel data x y r g b a blend) = width data /\
  height (drawPixel data x y r g b a blend) = height data /\
  length (pixels (drawPixel data x y r g b a blend)) = length (pixels data) /\
  (Forall (fun v => 0 <= v <= 255)%Z (pixels data) ->
   Forall (fun v => 0 <= v <= 255)%Z
          (pixels (drawPixel data x y r g b a blend))).
Proof.
  unfold drawPixel.
  destruct (_ || _ || _ || _)%bool; [tauto|].
  destruct (load _ _); [|tauto].
  destruct (Rle_dec _ _); [|destruct (Req_dec_T _ _); [|tauto]];
    cbn [width height pixels]; rewrite ?length_store;
    repeat split; intros; repeat apply store_range; assumption.
Qed.

Lemma drawPixel_keeps_well_formed (data : ImageData) (x y : Z) (r g b : jsnum)
    (a blend : R) :
  well_formed data -> well_formed (drawPixel data x y r g b a blend).
Proof.
  intros (Hw & Hh & Hlen & Hb).
  destruct (drawPixel_dimensions data x y r g b a blend) as (Ew & Eh & El & Er).
  unfold well_formed. rewrite Ew, Eh, El. auto.
Qed.

(** X20: [drawPixel] keeps the image well formed, whatever it is given
    (colours that are not numbers included): the dimensions and the length
    of the array do not change, and every byte stays within 0..255. *)
Theorem drawPixel_well_formed (data : ImageData) (x y : Z) (r g b : jsnum)
    (a blend : R) :
  well_formed data -> well_formed (drawPixel data x y r g b a blend).
Proof. apply drawPixel_keeps_well_formed. Qed.

Lemma drawPixel_well_formed_witness :
  well_formed (drawPixel (mkImage 1 1 [0; 0; 0; 255]%Z) 0 0 NaN Infinity (Fin 2)
                         3 (1 / 2)).
Proof.
  apply drawPixel_well_formed.
  repeat split; cbn; try lia. repeat constructor; lia.
Defined.

Lemma drawPixel_bytes (data : ImageData) (x y : Z) (r g b : jsnum)
    (a blend : R) (j : Z) :
  (j < offset data x y \/ offset data x y + 3 < j)%Z ->
  load (pixels (drawPixel data x y r g b a blend)) j = load (pixels data) j.
Proof.
  intros Hj. unfold drawPixel. fold (offset data x y).
  destruct (_ || _ || _ || _)%bool; [reflexivity|].
  destruct (load (pixels data) (offset data x y + 3)); [|reflexivity].
  destruct (Rle_dec _ _); [|destruct (Req_dec_T _ _); [|reflexivity]];
    cbn [pixels]; rewrite !load_store_ne by lia; reflexivity.
Qed.

Lemma drawPixel_other_pixel (data : ImageData) (x y x' y' : Z) (r g b : jsnum)
    (a blend : R) :
  in_bounds data x' y' -> (x', y') <> (x, y) ->
  same_pixel data (pixels data)
             (pixels (drawPixel data x y r g b a blend)) x' y'.
Proof.
  intros Hin' Hne m Hm.
  destruct ((x <? 0) || (x >=? width data) || (y <? 0) || (y >=? height data))%Z
    eqn:E.
  - unfold drawPixel. rewrite E. reflexivity.
  - apply drawPixel_bytes.
    repeat (apply orb_false_elim in E; destruct E as [E ?]).
    destruct Hin' as [Hx' Hy']. unfold offset.
    assert (y' * width data + x' <> y * width data + x)%Z.
    { intros Eq. apply Hne.
      assert (y' = y) by nia. subst. f_equal. lia. }
    lia.
Qed.

(** X21: [drawPixel] writes to the four bytes of its pixel only: every
    other pixel of the image keeps its bytes. *)
Theorem drawPixel_frame (data : ImageData) (x y x' y' : Z) (r g b : jsnum)
    (a blend : R) :
  in_bounds data x' y' -> (x', y') <> (x, y) ->
  same_pixel data (pixels data)
             (pixels (drawPixel data x y r g b a blend)) x' y'.
Proof. apply drawPixel_other_pixel. Qed.

Lemma drawPixel_frame_witness :
  same_pixel (mkImage 2 1 [1; 2; 3; 4; 5; 6; 7; 8]%Z)
             [1; 2; 3; 4; 5; 6; 7; 8]%Z
             (pixels (drawPixel (mkImage 2 1 [1; 2; 3; 4; 5; 6; 7; 8]%Z)
                                0 0 (Fin 1) (Fin 1) (Fin 1) 1 1)) 1 0.
Proof.
  apply (drawPixel_frame (mkImage 2 1 [1; 2; 3; 4; 5; 6; 7; 8]%Z) 0 0 1 0).
  - unfold in_bounds. cbn. lia.
  - intros E. inversion E.
Defined.

(** ** The rasterizer *)

Lemma normalize_facts (start end_ s e : LinePoint) (steep reverse : bool) :
  normalize start end_ = (s, e, steep, reverse) ->
  lx s <= lx e /\
  Rabs (ly e - ly s) <= lx e - lx s /\
  (let undo p :=
     let x := if reverse then - lx p else lx p in
     if steep then (ly p, x) else (x, ly p) in
   undo s = (lx start, ly start) /\ undo e = (lx end_, ly end_)) /\
  (lw s = lw start /\ lw e = lw end_).
Proof.
  unfold normalize.
  destruct (Rlt_dec (Rabs (lx start - lx end_)) (Rabs (ly start - ly end_)))
    as [Hs|Hs];
    match goal with
    | |- context [Rlt_dec ?a ?b] => destruct (Rlt_dec a b) as [Hr|Hr]
    end;
    intros [= <- <- <- <-]; cbn in *.
  all: revert Hs; unfold Rabs; repeat destruct (Rcase_abs _); intros Hs.
  all: repeat split; try lra.
  all: f_equal; lra.
Qed.

(** X22: after the swap of the axes and the inversion of the X axis the
    segment runs from left to right and is at most as tall as it is wide (so
    that the slope lies within [-1, 1]); the inverse change of coordinates
    that [drawLinePixel] applies to a pixel gives back the original start
    and end points. *)
Theorem normalize_invariant (start end_ s e : LinePoint) (steep reverse : bool) :
  normalize start end_ = (s, e, steep, reverse) ->
  lx s <= lx e /\
  Rabs (ly e - ly s) <= lx e - lx s /\
  (let undo p :=
     let x := if reverse then - lx p else lx p in
     if steep then (ly p, x) else (x, ly p) in
   undo s = (lx start, ly start) /\ undo e = (lx end_, ly end_)) /\
  (lw s = lw start /\ lw e = lw end_).
Proof. apply normalize_facts. Qed.

Lemma normalize_invariant_witness :
  lx (mkPoint (-5) 0 0 0 0 1 1) <= lx (mkPoint (-1) 3 0 0 0 1 1) /\
  Rabs (ly (mkPoint (-1) 3 0 0 0 1 1) - ly (mkPoint (-5) 0 0 0 0 1 1)) <=
    lx (mkPoint (-1) 3 0 0 0 1 1) - lx (mkPoint (-5) 0 0 0 0 1 1).
Proof.
  destruct (normalize_invariant (mkPoint 0 5 0 0 0 1 1) (mkPoint 3 1 0 0 0 1 1)
              (mkPoint (-5) 0 0 0 0 1 1) (mkPoint (-1) 3 0 0 0 1 1) true true)
    as (H1 & H2 & _).
  - unfold normalize. cbn [lx ly].
    destruct (Rlt_dec (Rabs (0 - 3)) (Rabs (5 - 1))) as [_|Hn].
    + cbn [swapXY lx ly].
      destruct (Rlt_dec 1 5) as [_|Hn]; [|lra].
      unfold negateX. cbn. repeat f_equal; lra.
    + exfalso. apply Hn. unfold Rabs.
      repeat destruct (Rcase_abs _); lra.
  - split; assumption.
Defined.


(** X23: the coverage of a pixel, as a function of the interpolated width
    [tw] and of its distance [d] to the centre line: it lies in [0, 1] and
    never exceeds the width; it is 1 within [(tw - 1) / 2] of the centre line
    when the width is at least 1, and 0 from [max(tw, 1) / 2 + 1 / 2] on. *)
Theorem coverage_profile (x y : Z) (start end_ : LinePoint) (t : R) :
  let tw := Rmax (lerp t (lw start) (lw end_)) 0 in
  let d := distance x y start end_ t in
  0 <= coverage x y start end_ t <= Rmin tw 1 /\
  (1 <= tw -> d <= (tw - 1) / 2 -> coverage x y start end_ t = 1) /\
  (Rmax tw 1 / 2 + 1 / 2 <= d -> coverage x y start end_ t = 0).
Proof.
  intros tw d. unfold coverage. fold (distance x y start end_ t).
  fold tw. fold d.
  assert (Htw0 : 0 <= tw) by (subst tw; apply Rmax_r).
  assert (Hd0 : 0 <= d) by (subst d; apply sqrt_pos).
  set (v := (Rmax tw 1 * (5 / 10) + 5 / 10 - d) * Rmin tw 1).
  pose proof (clamp01_bounds v) as Hb.
  assert (Hmin : 0 <= Rmin tw 1 <= 1).
  { unfold Rmin. destruct (Rle_dec tw 1); lra. }
  repeat split.
  - apply Hb.
  - destruct (Rle_lt_dec 1 tw) as [Hw|Hw].
    + rewrite Rmin_right by lra. apply Hb.
    + assert (Hv : v <= Rmin tw 1).
      { subst v. rewrite Rmax_right, Rmin_left by lra. nra. }
      destruct (Rle_lt_dec v 0) as [Hv0|Hv0].
      * rewrite clamp01_zero by exact Hv0. lra.
      * rewrite clamp01_inside by lra. exact Hv.
  - intros H1 Hd. unfold clamp01. apply clamp_above; [lra|].
    subst v. rewrite Rmax_left, Rmin_right by lra. nra.
  - intros Hd. apply clamp01_zero. subst v. nra.
Qed.

Lemma coverage_profile_witness :
  coverage 0 0 (mkPoint 0 0 0 0 0 1 3) (mkPoint 0 0 0 0 0 1 3) 0 = 1.
Proof.
  destruct (coverage_profile 0 0 (mkPoint 0 0 0 0 0 1 3)
              (mkPoint 0 0 0 0 0 1 3) 0) as (_ & H & _).
  assert (Hl : lerp 0 3 3 = 3) by (unfold lerp; ring).
  cbn [lw] in H. rewrite Hl, (Rmax_left 3 0) in H by lra.
  apply H; [lra|].
  unfold distance, lerp. cbn [lx ly].
  replace ((0 - ((1 - 0) * 0 + 0 * 0)) ^ 2 + (0 - ((1 - 0) * 0 + 0 * 0)) ^ 2)
    with 0 by ring.
  rewrite sqrt_0. lra.
Defined.

(** A property of the image that every call of [drawLinePixel] keeps is
    kept by the loops of [drawLine]. *)
Section Preservation.

Variable Inv : ImageData -> Prop.
Variables (start end_ : LinePoint) (steep reverse : bool).
Hypothesis step_keeps : forall data x y,
  Inv data -> Inv (fst (drawLinePixel data x y start end_ steep reverse)).

Lemma scan_preserves (fuel : nat) (step : Z) (data data' : ImageData) (x y : Z) :
  scan fuel step data x y start end_ steep reverse = Done data' ->
  Inv data -> Inv data'.
Proof.
  revert data y. induction fuel as [|fuel IH]; intros data y; cbn [scan];
    [discriminate|].
  pose proof (step_keeps data x y) as Hk.
  destruct (drawLinePixel data x y start end_ steep reverse) as [d inside].
  destruct inside.
  - intros Hs Hi. eapply IH; [exact Hs | apply Hk, Hi].
  - intros [= <-] Hi. apply Hk, Hi.
Qed.

Lemma columns_preserves (fuel n : nat) (data data' : ImageData) (x : Z)
    (slope : R) :
  columns fuel n data x slope start end_ steep reverse = Done data' ->
  Inv data -> Inv data'.
Proof.
  revert data x. induction n as [|n IH]; intros data x; cbn [columns].
  - intros [= <-] Hi. exact Hi.
  - set (lineY := clamp _ _ _).
    destruct (scan fuel 1 data x (Zceil lineY) start end_ steep reverse)
      as [d1| |] eqn:E1; try discriminate.
    cbn [mbind outcome_bind].
    destruct (scan fuel (-1) d1 x (Zfloor lineY) start end_ steep reverse)
      as [d2| |] eqn:E2; try discriminate.
    cbn [mbind outcome_bind].
    intros Hc Hi. eapply IH; [exact Hc|].
    eapply scan_preserves; [exact E2|].
    eapply scan_preserves; [exact E1 | exact Hi].
Qed.

End Preservation.

Lemma drawLine_preserves (Inv : ImageData -> Prop) (start end_ : LinePoint)
    (fuel : nat) (data data' : ImageData) :
  (forall s e steep reverse, normalize start end_ = (s, e, steep, reverse) ->
     forall d x y, Inv d -> Inv (fst (drawLinePixel d x y s e steep reverse))) ->
  drawLine fuel data start end_ = Done data' ->
  Inv data -> Inv data'.
Proof.
  intros Hk. unfold drawLine.
  destruct (normalize start end_) as [[[s e] steep] reverse] eqn:En.
  apply columns_preserves. apply (Hk s e steep reverse). reflexivity.
Qed.

Lemma drawLinePixel_cases (data : ImageData) (x y : Z) (start end_ : LinePoint)
    (steep reverse : bool) :
  fst (drawLinePixel data x y start end_ steep reverse) = data \/
  (coverage x y start end_ (clamp01 (projection x y start end_)) <> 0 /\
   0 <= projection x y start end_ /\
   exists r g b a blend,
     fst (drawLinePixel data x y start end_ steep reverse) =
     drawPixel data
       (if steep then y else if reverse then - x else x)%Z
       (if steep then (if reverse then - x else x) else y)%Z
       r g b a blend).
Proof.
  unfold drawLinePixel.
  destruct (Req_dec_T _ 0) as [|Hc]; [left; reflexivity|].
  destruct (Rlt_dec (projection x y start end_) 0) as [|Hp];
    [left; reflexivity|].
  right. split; [exact Hc|]. split; [lra|].
  destruct steep; cbn [fst]; eauto 10.
Qed.

Lemma drawLinePixel_well_formed (w h : Z) (data : ImageData) (x y : Z)
    (start end_ : LinePoint) (steep reverse : bool) :
  well_formed data /\ width data = w /\ height data = h ->
  let data' := fst (drawLinePixel data x y start end_ steep reverse) in
  well_formed data' /\ width data' = w /\ height data' = h.
Proof.
  intros (Hwf & Hw & Hh) data'. subst data'.
  destruct (drawLinePixel_cases data x y start end_ steep reverse)
    as [-> | (_ & _ & r & g & b & a & blend & ->)]; [tauto|].
  split; [apply drawPixel_keeps_well_formed, Hwf|].
  destruct (drawPixel_dimensions data
              (if steep then y else if reverse then - x else x)%Z
              (if steep then (if reverse then - x else x) else y)%Z
              r g b a blend) as (Ew & Eh & _).
  rewrite Ew, Eh. tauto.
Qed.

Lemma drawLine_keeps_well_formed (w h : Z) (fuel : nat) (data data' : ImageData)
    (start end_ : LinePoint) :
  drawLine fuel data start end_ = Done data' ->
  well_formed data /\ width data = w /\ height data = h ->
  well_formed data' /\ width data' = w /\ height data' = h.
Proof.
  apply (drawLine_preserves
           (fun d => well_formed d /\ width d = w /\ height d = h)).
  intros s e steep reverse _ d x y. apply drawLinePixel_well_formed.
Qed.

Lemma segments_keeps_well_formed (w h : Z) (fuel : nat) (this : Context.t)
    (stroke : Stroke.t) (n : nat) (k : Z) (lineStart : LinePoint)
    (data data' : ImageData) :
  Context.segments fuel this stroke n k lineStart data = Done data' ->
  well_formed data /\ width data = w /\ height data = h ->
  well_formed data' /\ width data' = w /\ height data' = h.
Proof.
  revert k lineStart data. induction n as [|n IH]; intros k lineStart data;
    cbn [Context.segments].
  - intros [= <-]. tauto.
  - destruct (Context.sample this stroke _) as [lineEnd| |]; try discriminate.
    cbn [mbind outcome_bind].
    destruct (drawLine fuel data lineStart lineEnd) as [d1| |] eqn:E1;
      try discriminate.
    cbn [mbind outcome_bind]. intros Hs Hi.
    eapply IH; [exact Hs|]. eapply drawLine_keeps_well_formed; eauto.
Qed.

Lemma drawStrokes_keeps_well_formed (w h : Z) (fuel : nat) (this : Context.t)
    (strokes : list Stroke.t) (data data' : ImageData) :
  Context.drawStrokes fuel this data strokes = Done data' ->
  well_formed data /\ width data = w /\ height data = h ->
  well_formed data' /\ width data' = w /\ height data' = h.
Proof.
  revert data. induction strokes as [|stroke strokes IH]; intros data;
    cbn [Context.drawStrokes].
  - intros [= <-]. tauto.
  - unfold Context.drawStroke.
    destruct (Context.sample this stroke 0) as [lineStart| |]; try discriminate.
    cbn [mbind outcome_bind].
    destruct (drawLine fuel data lineStart lineStart) as [d1| |] eqn:E1;
      try discriminate.
    cbn [mbind outcome_bind].
    destruct (Context.segments fuel this stroke _ 1 lineStart d1)
      as [d2| |] eqn:E2; try discriminate.
    cbn [mbind outcome_bind]. intros Hs Hi.
    eapply IH; [exact Hs|].
    eapply segments_keeps_well_formed; [exact E2|].
    eapply drawLine_keeps_well_formed; eauto.
Qed.

Lemma createImageData_well_formed (w h : Z) :
  (0 <= w)%Z -> (0 <= h)%Z -> well_formed (createImageData w h).
Proof.
  intros Hw Hh. unfold well_formed, createImageData. cbn.
  repeat split; try assumption.
  - rewrite length_replicate. nia.
  - apply Forall_replicate. lia.
Qed.

(** *** A horizontal stroke, pixel by pixel *)

Lemma drawLinePixel_miss (data : ImageData) (x y : Z) (start end_ : LinePoint)
    (steep reverse : bool) :
  coverage x y start end_ (clamp01 (projection x y start end_)) = 0 ->
  drawLinePixel data x y start end_ steep reverse = (data, false).
Proof.
  intros H. unfold drawLinePixel. rewrite H.
  destruct (Req_dec_T 0 0); [reflexivity | congruence].
Qed.

Lemma sqrt_ge (c v : R) : 0 <= c -> c ^ 2 <= v -> c <= sqrt v.
Proof.
  intros Hc Hv. rewrite <- (sqrt_pow2 c Hc). apply sqrt_le_1_alt. exact Hv.
Qed.

Lemma sqrt_lt (c v : R) : 0 <= v -> 0 <= c -> v < c ^ 2 -> sqrt v < c.
Proof.
  intros Hv Hc Hlt. rewrite <- (sqrt_pow2 c Hc). apply sqrt_lt_1_alt.
  split; assumption.
Qed.

(** A black, opaque stroke of constant width [w >= 1] between the integer
    abscissas [a <= b] of the row 0.  The point of the segment closest to the
    pixel [(x, y)] is [(c, 0)], where [c] is [x] clamped to [[a, b]], and [v]
    is the square of the distance between the two. *)
Section HorizontalLine.

Variables (a b : Z) (w : R).
Hypothesis Hab : (a <= b)%Z.
Hypothesis Hw : 1 <= w.

Lemma hline_normalize :
  normalize (mkPoint (IZR a) 0 0 0 0 1 w) (mkPoint (IZR b) 0 0 0 0 1 w) =
  (mkPoint (IZR a) 0 0 0 0 1 w, mkPoint (IZR b) 0 0 0 0 1 w, false, false).
Proof.
  pose proof (IZR_le _ _ Hab) as HabR.
  unfold normalize. cbn [lx ly].
  destruct (Rlt_dec (Rabs (IZR a - IZR b)) (Rabs (0 - 0))) as [H|_].
  - exfalso. revert H. unfold Rabs. repeat destruct (Rcase_abs _); lra.
  - cbn [lx]. destruct (Rlt_dec (IZR b) (IZR a)); [lra | reflexivity].
Qed.

(** The clamped projection parameter is that of [(c, 0)], and the pixel is
    in the start cap when it is left of a segment that has a length. *)
Lemma hline_projection (x y : Z) :
  lerp (clamp01 (projection x y (mkPoint (IZR a) 0 0 0 0 1 w)
                            (mkPoint (IZR b) 0 0 0 0 1 w)))
       (IZR a) (IZR b) = IZR (Z.max a (Z.min x b)) /\
  (projection x y (mkPoint (IZR a) 0 0 0 0 1 w) (mkPoint (IZR b) 0 0 0 0 1 w) < 0
   <-> (x < a < b)%Z).
Proof.
  unfold projection. cbn [lx ly].
  destruct (Req_dec_T (IZR b - IZR a) 0) as [E|E].
  - assert (Eb : b = a) by (apply eq_IZR; lra).
    rewrite clamp01_inside by lra. split.
    + unfold lerp. replace (Z.max a (Z.min x b)) with a by lia.
      rewrite Eb. ring.
    + split; [lra | lia].
  - assert (Hlt : (a < b)%Z).
    { destruct (Z.eq_dec a b) as [Eab|]; [|lia].
      exfalso. apply E. rewrite Eab. ring. }
    assert (HltR : IZR a < IZR b) by (apply IZR_lt; exact Hlt).
    replace (((IZR b - IZR a) * (IZR x - IZR a) + (0 - 0) * (IZR y - 0)) /
             ((IZR b - IZR a) ^ 2 + (0 - 0) ^ 2))
      with ((IZR x - IZR a) / (IZR b - IZR a)) by (field; lra).
    set (t := (IZR x - IZR a) / (IZR b - IZR a)).
    assert (Hden : 0 < / (IZR b - IZR a)) by (apply Rinv_0_lt_compat; lra).
    split.
    + destruct (Z_lt_le_dec x a) as [Hx|Hx].
      * assert (IZR x < IZR a) by (apply IZR_lt; exact Hx).
        rewrite clamp01_zero by (subst t; unfold Rdiv; nra).
        replace (Z.max a (Z.min x b)) with a by lia. unfold lerp. ring.
      * assert (IZR a <= IZR x) by (apply IZR_le; exact Hx).
        destruct (Z_lt_le_dec b x) as [Hx'|Hx'].
        -- assert (IZR b < IZR x) by (apply IZR_lt; exact Hx').
           unfold clamp01. rewrite clamp_above; [|lra|].
           ++ replace (Z.max a (Z.min x b)) with b by lia.
              unfold lerp. ring.
           ++ subst t. apply (Rmult_le_reg_r (IZR b - IZR a)); [lra|].
              unfold Rdiv. rewrite Rmult_assoc, Rinv_l by lra. lra.
        -- assert (IZR x <= IZR b) by (apply IZR_le; exact Hx').
           rewrite clamp01_inside.
           ++ replace (Z.max a (Z.min x b)) with x by lia.
              subst t. unfold lerp. field. lra.
           ++ subst t. split.
              ** unfold Rdiv. nra.
              ** apply (Rmult_le_reg_r (IZR b - IZR a)); [lra|].
                 unfold Rdiv. rewrite Rmult_assoc, Rinv_l by lra. lra.
    + subst t. split.
      * intros Hneg. split; [|exact Hlt]. apply lt_IZR.
        unfold Rdiv in Hneg. nra.
      * intros [Hx _]. assert (IZR x < IZR a) by (apply IZR_lt; exact Hx).
        unfold Rdiv. nra.
Qed.

Lemma hline_coverage (x y c v : Z) :
  c = Z.max a (Z.min x b) -> v = ((x - c) * (x - c) + y * y)%Z ->
  coverage x y (mkPoint (IZR a) 0 0 0 0 1 w) (mkPoint (IZR b) 0 0 0 0 1 w)
    (clamp01 (projection x y (mkPoint (IZR a) 0 0 0 0 1 w)
                         (mkPoint (IZR b) 0 0 0 0 1 w))) =
  clamp01 (w * (5 / 10) + 5 / 10 - sqrt (IZR v)).
Proof.
  intros Hc Hv.
  destruct (hline_projection x y) as [Hl _]. rewrite <- Hc in Hl.
  unfold coverage. cbn [lx ly lw]. rewrite Hl.
  set (t := clamp01 (projection _ _ _ _)).
  replace (lerp t 0 0) with 0 by (unfold lerp; ring).
  replace (lerp t w w) with w by (unfold lerp; ring).
  rewrite (Rmax_left w 0), (Rmax_left w 1), (Rmin_right w 1) by lra.
  rewrite Rmult_1_r. do 3 f_equal. rewrite Hv.
  rewrite plus_IZR, !mult_IZR, minus_IZR. ring.
Qed.

(** Out of reach: the scan stops. *)
Lemma hline_miss (data : ImageData) (x y c v : Z) :
  c = Z.max a (Z.min x b) -> v = ((x - c) * (x - c) + y * y)%Z ->
  (w * (5 / 10) + 5 / 10) ^ 2 <= IZR v ->
  drawLinePixel data x y (mkPoint (IZR a) 0 0 0 0 1 w)
    (mkPoint (IZR b) 0 0 0 0 1 w) false false = (data, false).
Proof.
  intros Hc Hv Hle. apply drawLinePixel_miss.
  rewrite (hline_coverage x y c v Hc Hv). apply clamp01_zero.
  pose proof (sqrt_ge (w * (5 / 10) + 5 / 10) _ ltac:(lra) Hle). lra.
Qed.

Lemma hline_inside (x y c v : Z) :
  c = Z.max a (Z.min x b) -> v = ((x - c) * (x - c) + y * y)%Z ->
  IZR v < (w * (5 / 10) + 5 / 10) ^ 2 ->
  clamp01 (w * (5 / 10) + 5 / 10 - sqrt (IZR v)) <> 0.
Proof.
  intros Hc Hv Hlt.
  assert (H0 : 0 <= IZR v) by (apply IZR_le; rewrite Hv; nia).
  pose proof (sqrt_lt (w * (5 / 10) + 5 / 10) (IZR v) H0 ltac:(lra) Hlt).
  intros E. unfold clamp01 in E.
  destruct (Rle_lt_dec (w * (5 / 10) + 5 / 10 - sqrt (IZR v)) 1).
  - rewrite clamp_inside in E by lra. lra.
  - rewrite clamp_above in E by lra. lra.
Qed.


(** Within reach, past the start: the pixel is drawn in black with the
    coverage [w / 2 + 1 / 2 - sqrt v], clamped. *)
Lemma hline_hit (data : ImageData) (x y c v : Z) :
  c = Z.max a (Z.min x b) -> v = ((x - c) * (x - c) + y * y)%Z ->
  IZR v < (w * (5 / 10) + 5 / 10) ^ 2 ->
  (a <= x \/ a = b)%Z ->
  drawLinePixel data x y (mkPoint (IZR a) 0 0 0 0 1 w)
    (mkPoint (IZR b) 0 0 0 0 1 w) false false =
  (drawPixel data x y (Fin 0) (Fin 0) (Fin 0) 1
     (clamp01 (w * (5 / 10) + 5 / 10 - sqrt (IZR v))), true).
Proof.
  intros Hc Hv Hin Hx.
  pose proof (hline_inside x y c v Hc Hv Hin) as Hne.
  unfold drawLinePixel. rewrite (hline_coverage x y c v Hc Hv).
  destruct (Req_dec_T _ 0) as [E|_]; [contradiction|].
  destruct (Rlt_dec (projection x y _ _) 0) as [Hp|_].
  - apply hline_projection in Hp. lia.
  - cbn [la lr lg lb].
    set (t := clamp01 _).
    replace (lerp t 1 1) with 1 by (unfold lerp; ring).
    replace (lerp t (0 * 1) (0 * 1)) with 0 by (unfold lerp; ring).
    rewrite jsdiv_Fin by lra.
    replace (0 / 1) with 0 by field. reflexivity.
Qed.

Lemma hline_drawLine (fuel : nat) (data : ImageData) :
  drawLine fuel data (mkPoint (IZR a) 0 0 0 0 1 w) (mkPoint (IZR b) 0 0 0 0 1 w) =
  columns fuel
    (Z.to_nat (Zfloor (IZR b + w * (5 / 10)) - Zfloor (IZR a - w * (5 / 10)) + 1))
    data (Zfloor (IZR a - w * (5 / 10)))
    (if Req_dec_T (IZR b) (IZR a) then 0 else (0 - 0) / (IZR b - IZR a))
    (mkPoint (IZR a) 0 0 0 0 1 w) (mkPoint (IZR b) 0 0 0 0 1 w) false false.
Proof. unfold drawLine. rewrite hline_normalize. reflexivity. Qed.

(** Every column is scanned down and up from the row 0. *)
Lemma hline_column (fuel n : nat) (data : ImageData) (x : Z) (slope : R) :
  columns fuel (S n) data x slope (mkPoint (IZR a) 0 0 0 0 1 w)
    (mkPoint (IZR b) 0 0 0 0 1 w) false false =
  (data ← scan fuel 1 data x 0 (mkPoint (IZR a) 0 0 0 0 1 w)
            (mkPoint (IZR b) 0 0 0 0 1 w) false false;
   data ← scan fuel (-1) data x 0 (mkPoint (IZR a) 0 0 0 0 1 w)
            (mkPoint (IZR b) 0 0 0 0 1 w) false false;
   columns fuel n data (x + 1)%Z slope (mkPoint (IZR a) 0 0 0 0 1 w)
     (mkPoint (IZR b) 0 0 0 0 1 w) false false).
Proof.
  cbn [columns]. cbn [ly lx].
  assert (E : clamp (0 + slope * (IZR x - IZR a)) 0 0 = 0).
  { pose proof (clamp_bounds (0 + slope * (IZR x - IZR a)) 0 0). lra. }
  rewrite E. rewrite (Zceil_eq 0 0) by lra. rewrite (ZfloorZ 0). reflexivity.
Qed.

End HorizontalLine.

(** Black of alpha 1 drawn with a coverage that is at least the alpha of the
    pixel: the pixel becomes black, with the coverage as its alpha. *)
Lemma drawPixel_ink (w h : Z) (l : list Z) (x y old : Z) (blend : R) :
  (0 <= x < w)%Z -> (0 <= y < h)%Z ->
  let n := Z.to_nat ((y * w + x) * 4) in
  l !! (n + 3)%nat = Some old -> IZR old / 255 <= blend -> 0 <= blend <= 1 ->
  drawPixel (mkImage w h l) x y (Fin 0) (Fin 0) (Fin 0) 1 blend =
  mkImage w h
    (<[(n + 3)%nat := Zfloor (blend * 255)]>
       (<[(n + 2)%nat := 0%Z]> (<[(n + 1)%nat := 0%Z]> (<[n := 0%Z]> l)))).
Proof.
  intros Hx Hy n Hold Hle Hb. unfold drawPixel.
  rewrite (in_bounds_test (mkImage w h l) x y) by (split; assumption).
  cbn [width height pixels].
  set (i := ((y * w + x) * 4)%Z). assert (Hi : (0 <= i)%Z) by (subst i; nia).
  assert (Hl : load l (i + 3) = Some old).
  { unfold load. destruct (0 <=? i + 3)%Z eqn:E; [|lia].
    replace (Z.to_nat (i + 3)) with (n + 3)%nat by (subst n; fold i; lia).
    exact Hold. }
  rewrite Hl. destruct (Rle_dec (IZR old / 255) blend) as [_|]; [|contradiction].
  rewrite (proj1 (channelByte_Fin 0)). cbn [ofByte].
  rewrite (clamp01_inside 0), (clamp01_inside 1) by lra.
  replace (0 * 255) with (IZR 0) by ring. rewrite ZfloorZ.
  replace (1 * blend * 255) with (blend * 255) by ring.
  assert (Hf : (0 <= Zfloor (blend * 255) <= 255)%Z).
  { pose proof (Zfloor_bound (blend * 255)) as Hf. split.
    - apply Zfloor_lub. lra.
    - assert (Zfloor (blend * 255) < 256)%Z; [|lia]. apply lt_IZR. lra. }
  unfold store.
  repeat match goal with
  | |- context [(0 <=? ?j)%Z] =>
      replace (0 <=? j)%Z with true by (symmetry; apply Z.leb_le; lia)
  end.
  rewrite !ToUint8Clamp_byte by lia.
  replace (Z.to_nat (i + 0)) with n by (subst n; fold i; lia).
  replace (Z.to_nat (i + 1)) with (n + 1)%nat by (subst n; fold i; lia).
  replace (Z.to_nat (i + 2)) with (n + 2)%nat by (subst n; fold i; lia).
  replace (Z.to_nat (i + 3)) with (n + 3)%nat by (subst n; fold i; lia).
  reflexivity.
Qed.

Lemma ink_full (w h : Z) (l : list Z) (x y old : Z) (blend : R) :
  (0 <= x < w)%Z -> (0 <= y < h)%Z ->
  let n := Z.to_nat ((y * w + x) * 4) in
  l !! (n + 3)%nat = Some old -> (old <= 255)%Z -> blend = 1 ->
  drawPixel (mkImage w h l) x y (Fin 0) (Fin 0) (Fin 0) 1 blend =
  mkImage w h
    (<[(n + 3)%nat := 255%Z]>
       (<[(n + 2)%nat := 0%Z]> (<[(n + 1)%nat := 0%Z]> (<[n := 0%Z]> l)))).
Proof.
  intros Hx Hy n Hold Hle ->.
  assert (IZR old <= 255) by (apply IZR_le; exact Hle).
  rewrite (drawPixel_ink w h l x y old 1 Hx Hy Hold) by lra.
  fold n. replace (1 * 255) with (IZR 255) by ring. rewrite ZfloorZ. reflexivity.
Qed.



Lemma blend_on_line (w : R) :
  1 <= w -> clamp01 (w * (5 / 10) + 5 / 10 - sqrt 0) = 1.
Proof.
  intros Hw. rewrite sqrt_0. unfold clamp01. apply clamp_above; lra.
Qed.


(** One step of the evaluation of [drawLine] on a horizontal stroke: the
    next pixel is out of reach ([miss]), in the start cap ([cap]) or drawn
    ([hit]); [c] and [v] are the clamped abscissa and the squared distance
    of the pixel. *)
Ltac znorm :=
  repeat match goal with
  | |- context [(?a + ?b)%Z] =>
      is_ground a; is_ground b;
      let v := eval vm_compute in (a + b)%Z in change (a + b)%Z with v
  end.

Ltac next := cbn [mbind outcome_bind scan]; znorm.

Ltac miss a b w c v :=
  rewrite (hline_miss a b w ltac:(lia) ltac:(lra) _ _ _ c v)
    by first [lia | lra]; next.


Ltac hit a b w c v :=
  rewrite (hline_hit a b w ltac:(lia) ltac:(lra) _ _ _ c v)
    by first [lia | lra]; next.

Ltac column a b w := rewrite (hline_column a b w); next.

Ltac full old :=
  rewrite (ink_full _ _ _ _ _ old)
    by first [lia | reflexivity | apply blend_on_line; lra].



(** The default stroke point drawn as a zero-length segment on a canvas of
    one pixel: the pixel becomes opaque black. *)
Lemma drawLine_dot (p0 p1 p2 p3 : Z) :
  (p3 <= 255)%Z ->
  drawLine 2 (mkImage 1 1 [p0; p1; p2; p3]) (mkPoint 0 0 0 0 0 1 1)
           (mkPoint 0 0 0 0 0 1 1) =
    Done (mkImage 1 1 [0; 0; 0; 255]%Z).
Proof.
  intros Hp.
  rewrite (hline_drawLine 0 0 1 ltac:(lia)).
  rewrite (Zfloor_eq 0 (0 + 1 * (5 / 10))) by lra.
  rewrite (Zfloor_eq (-1) (0 - 1 * (5 / 10))) by lra.
  change (Z.to_nat (0 - -1 + 1)) with 2%nat.
  (* column -1 *)
  column 0%Z 0%Z 1.
  miss 0%Z 0%Z 1 0%Z 1%Z.
  miss 0%Z 0%Z 1 0%Z 1%Z.
  (* column 0, downwards and upwards *)
  column 0%Z 0%Z 1.
  hit 0%Z 0%Z 1 0%Z 0%Z. full p3. miss 0%Z 0%Z 1 0%Z 1%Z.
  hit 0%Z 0%Z 1 0%Z 0%Z. full 255%Z. miss 0%Z 0%Z 1 0%Z 1%Z.
  reflexivity.
Qed.


(** The default context with the empty stroke: every sample is the default
    point, and [draw] paints the one pixel of the canvas black. *)
Lemma segments_dot (n : nat) (k : Z) :
  Context.segments 2 (Context.add Context.new [Stroke.new]) Stroke.new n k
    (mkPoint 0 0 0 0 0 1 1) (mkImage 1 1 [0; 0; 0; 255]%Z) =
  Done (mkImage 1 1 [0; 0; 0; 255]%Z).
Proof.
  revert k. induction n as [|n IH]; intros k; [reflexivity|].
  cbn [Context.segments]. unfold Context.sample.
  cbn [Stroke.evaluate Stroke.new Stroke._evaluator mbind outcome_bind].
  change (resolve _ emptyPoint) with (mkPoint 0 0 0 0 0 1 1).
  rewrite drawLine_dot by lia. cbn [mbind outcome_bind]. apply IH.
Qed.

Lemma draw_default_stroke :
  Context.draw 2 (Context.add Context.new [Stroke.new]) 1 1 =
    Done (mkImage 1 1 [0; 0; 0; 255]%Z).
Proof.
  unfold Context.draw.
  change (Context._strokes (Context.add Context.new [Stroke.new]))
    with [Stroke.new].
  change (createImageData 1 1) with (mkImage 1 1 [0; 0; 0; 0]%Z).
  cbn [Context.drawStrokes]. unfold Context.drawStroke, Context.sample.
  cbn [Stroke.evaluate Stroke.new Stroke._evaluator mbind outcome_bind].
  change (resolve _ emptyPoint) with (mkPoint 0 0 0 0 0 1 1).
  rewrite drawLine_dot by lia. cbn [mbind outcome_bind].
  rewrite segments_dot. reflexivity.
Qed.



(** X24: the image [draw] hands to the canvas has the dimensions of the
    canvas and four bytes for each pixel, every byte within 0..255,
    whatever the strokes, the default point and the segmentation count. *)
Theorem draw_well_formed (fuel : nat) (this : Context.t) (w h : Z)
    (image : ImageData) :
  (0 <= w)%Z -> (0 <= h)%Z ->
  Context.draw fuel this w h = Done image ->
  well_formed image /\ width image = w /\ height image = h.
Proof.
  intros Hw Hh Hd. unfold Context.draw in Hd.
  eapply drawStrokes_keeps_well_formed; [exact Hd|].
  split; [apply createImageData_well_formed; assumption|].
  split; reflexivity.
Qed.

Lemma draw_well_formed_witness :
  Context.draw 2 (Context.add Context.new [Stroke.new]) 1 1 =
    Done (mkImage 1 1 [0; 0; 0; 255]%Z) /\
  well_formed (mkImage 1 1 [0; 0; 0; 255]%Z) /\
  width (mkImage 1 1 [0; 0; 0; 255]%Z) = 1%Z /\
  height (mkImage 1 1 [0; 0; 0; 255]%Z) = 1%Z.
Proof.
  split; [exact draw_default_stroke|].
  apply (draw_well_formed 2 (Context.add Context.new [Stroke.new]) 1 1);
    [lia | lia | exact draw_default_stroke].
Defined.









(** ** The context *)

Lemma segments_ext (fuel : nat) (this this' : Context.t) (stroke : Stroke.t)
    (n : nat) (k : Z) (lineStart : LinePoint) (data : ImageData) :
  Context.segmentation this' = Context.segmentation this ->
  Context.default this' = Context.default this ->
  Context.segments fuel this' stroke n k lineStart data =
  Context.segments fuel this stroke n k lineStart data.
Proof.
  intros Hs Hd. revert k lineStart data.
  induction n as [|n IH]; intros k lineStart data; [reflexivity|].
  cbn [Context.segments]. unfold Context.sample. rewrite Hs, Hd.
  destruct (Stroke.evaluate stroke _); [|reflexivity].
  cbn [mbind outcome_bind].
  destruct (drawLine fuel data lineStart _); try reflexivity.
  cbn [mbind outcome_bind]. apply IH.
Qed.

Lemma drawStrokes_ext (fuel : nat) (this this' : Context.t)
    (strokes : list Stroke.t) (data : ImageData) :
  Context.segmentation this' = Context.segmentation this ->
  Context.default this' = Context.default this ->
  Context.drawStrokes fuel this' data strokes =
  Context.drawStrokes fuel this data strokes.
Proof.
  intros Hs Hd. revert data.
  induction strokes as [|stroke strokes IH]; intros data; [reflexivity|].
  cbn [Context.drawStrokes]. unfold Context.drawStroke, Context.sample.
  rewrite Hs, Hd.
  destruct (Stroke.evaluate stroke 0); [|reflexivity].
  cbn [mbind outcome_bind].
  destruct (drawLine fuel data _ _); try reflexivity.
  cbn [mbind outcome_bind].
  rewrite (segments_ext fuel this this') by assumption.
  destruct (Context.segments fuel this stroke _ 1 _ _); try reflexivity.
  cbn [mbind outcome_bind]. apply IH.
Qed.

Lemma drawStrokes_app (fuel : nat) (this : Context.t)
    (l1 l2 : list Stroke.t) (data : ImageData) :
  Context.drawStrokes fuel this data (l1 ++ l2) =
  (d ← Context.drawStrokes fuel this data l1;
   Context.drawStrokes fuel this d l2).
Proof.
  revert data. induction l1 as [|stroke l1 IH]; intros data; [reflexivity|].
  cbn [app Context.drawStrokes].
  destruct (Context.drawStroke fuel this data stroke); try reflexivity.
  cbn [mbind outcome_bind]. apply IH.
Qed.

(** X27: strokes are drawn in the order they were added: drawing after
    [add] is drawing the strokes already in the context and then, on the
    image obtained, the added ones; after [clear] the image is blank. *)
Theorem draw_add (fuel : nat) (this : Context.t) (strokes : list Stroke.t)
    (w h : Z) :
  Context.draw fuel (Context.add this strokes) w h =
    (d ← Context.draw fuel this w h;
     Context.drawStrokes fuel this d strokes) /\
  Context.draw fuel (Context.clear this) w h = Done (createImageData w h).
Proof.
  split; [|reflexivity].
  unfold Context.draw. cbn [Context.add Context._strokes].
  rewrite (drawStrokes_ext fuel this) by reflexivity.
  apply drawStrokes_app.
Qed.

(** ** The start cap *)




(** ** Closed forms *)

(** X29: on two, three and four values [bezier] is the linear, the
    quadratic and the cubic Bernstein polynomial. *)
Theorem bezier_bernstein (t a b c d : R) :
  bezier t [a; b] = Some ((1 - t) * a + t * b) /\
  bezier t [a; b; c] =
    Some ((1 - t) ^ 2 * a + 2 * (1 - t) * t * b + t ^ 2 * c) /\
  bezier t [a; b; c; d] =
    Some ((1 - t) ^ 3 * a + 3 * (1 - t) ^ 2 * t * b +
          3 * (1 - t) * t ^ 2 * c + t ^ 3 * d).
Proof.
  assert (H2 : forall u v, bezier t [u; v] = Some ((1 - t) * u + t * v)).
  { intros u v. rewrite bezier_equation_3. cbn [removelast].
    rewrite !bezier_equation_2. reflexivity. }
  assert (H3 : forall u v w,
             bezier t [u; v; w] =
             Some ((1 - t) ^ 2 * u + 2 * (1 - t) * t * v + t ^ 2 * w)).
  { intros u v w. rewrite bezier_equation_3. cbn [removelast].
    rewrite !H2. f_equal. unfold lerp. ring. }
  split; [apply H2|]. split; [apply H3|].
  rewrite bezier_equation_3. cbn [removelast]. rewrite !H3.
  f_equal. unfold lerp. ring.
Qed.

Lemma sin_even_turns (x : R) (k : Z) : sin (x + IZR (2 * k) * PI) = sin x.
Proof.
  destruct (Z_le_gt_dec 0 k) as [Hk|Hk].
  - rewrite mult_IZR, <- (Z2Nat.id k), <- INR_IZR_INZ by exact Hk.
    apply sin_period.
  - rewrite <- (sin_period (x + IZR (2 * k) * PI) (Z.to_nat (- k))).
    f_equal. rewrite mult_IZR, INR_IZR_INZ, Z2Nat.id, opp_IZR by lia. ring.
Qed.

(** X30: when the two radii are equal and not zero, the polar and the
    tangent forms give the positions of the parametric form, away from the
    poles of the tangent. *)
Theorem circle_forms_agree (c : Stroke.t) (x y r start t : R) (ccw : bool)
    (form : Form) (q q' : LinePointPartial) :
  r <> 0 ->
  wrapTurn (t + start / (2 * PI)) <> 1 / 4 ->
  wrapTurn (t + start / (2 * PI)) <> -(1 / 4) ->
  Stroke.evaluate (Stroke.ellipse c x y r r start ccw form) t = Some q ->
  Stroke.evaluate (Stroke.ellipse c x y r r start ccw parametric_form) t = Some q' ->
  px q = px q' /\ py q = py q'.
Proof.
  intros Hr Hp Hm Hq Hq'.
  destruct (ellipse_position _ _ _ _ _ _ _ _ _ _ Hq) as [HX HY].
  destruct (ellipse_position _ _ _ _ _ _ _ _ _ _ Hq') as [HX' HY'].
  rewrite HX, HY, HX', HY'.
  set (t' := t + start / (2 * PI)) in *.
  assert (Hu : ellipseParam r r start form t = t' \/
               ellipseParam r r start form t = wrapTurn t').
  { unfold ellipseParam. fold t'. destruct form; [left; reflexivity | |];
      right; (replace (r / r) with 1 by (field; exact Hr));
      apply slideEllipse_unit_ratio; assumption. }
  assert (Hpar : ellipseParam r r start parametric_form t = t') by reflexivity.
  rewrite Hpar. clear Hpar HX HY HX' HY' Hq Hq'.
  destruct Hu as [-> | ->]; [split; reflexivity|].
  destruct (wrapTurn_range t') as [_ [k Hk]].
  set (n := wrapTurn t') in *. clearbody n. clearbody t'. subst t'.
  destruct ccw.
  - replace (- (n + IZR k) * 2 * PI)
      with (- n * 2 * PI + IZR (2 * - k) * PI)
      by (rewrite mult_IZR, opp_IZR; ring).
    rewrite cos_even_turns, sin_even_turns. split; reflexivity.
  - replace ((n + IZR k) * 2 * PI)
      with (n * 2 * PI + IZR (2 * k) * PI)
      by (rewrite mult_IZR; ring).
    rewrite cos_even_turns, sin_even_turns. split; reflexivity.
Qed.

Lemma circle_forms_agree_witness :
  exists q q',
    Stroke.evaluate (Stroke.ellipse Stroke.new 0 0 1 1 0 false polar_form) 0 =
      Some q /\
    Stroke.evaluate (Stroke.ellipse Stroke.new 0 0 1 1 0 false parametric_form) 0 =
      Some q' /\
    px q = px q' /\ py q = py q'.
Proof.
  eexists _, _. split; [reflexivity|]. split; [reflexivity|].
  assert (H0 : wrapTurn (0 + 0 / (2 * PI)) = 0).
  { replace (0 + 0 / (2 * PI)) with 0 by (unfold Rdiv; ring).
    apply wrapTurn_id. lra. }
  apply (circle_forms_agree Stroke.new 0 0 1 0 0 false polar_form);
    try reflexivity; try rewrite H0; lra.
Defined.
